(** * The interpolation engine of [core/interpolation]

    A shallow embedding of the template engine: the AST of [nodes.py], the
    lexer of [lexer.py], the result container of [render_result.py], the
    evaluator of [interpreter.py] and the facade of [interpolator.py],
    followed by the properties of the engine.

    Conventions of the embedding.
    - A Python [str] is a [list ascii]: a character is a code point below
      256.  String literals are read through the coercion
      [list_ascii_of_string].
    - A [while i < length] loop over a string is a recursive function on the
      suffix [text[i:]] that is still to be read; the loop variables are its
      other arguments.
    - A [dict] is a [gmap].
    - The interpreter mutates [self.result] and handlers may raise: its
      functions live in a state-and-exception monad over [RenderResult].
      What is raised is an [Exception], the class that the [except] clauses
      of the interpreter name.
    - Recursion is as deep as the data asks for: the call stack of the
      Python interpreter is not bounded. *)

From Stdlib Require Import Ascii String DecimalString ZArith Lia.
From stdpp Require Import gmap strings list.

Open Scope string_scope.
Open Scope nat_scope.
Open Scope list_scope.
Open Scope stdpp_scope.

Abbreviation str := (list ascii).
Coercion list_ascii_of_string : string >-> list.

(** ** Python string helpers *)

(** [str.isspace] for one character, on the code points below 256. *)
Definition isspace (c : ascii) : bool :=
  let n := nat_of_ascii c in
  ((9 <=? n) && (n <=? 13)) || ((28 <=? n) && (n <=? 32))
  || (n =? 133) || (n =? 160).

Fixpoint lstrip (s : str) : str :=
  match s with
  | c :: s' => if isspace c then lstrip s' else s
  | [] => []
  end.

Definition rstrip (s : str) : str := rev (lstrip (rev s)).

(** [s.strip()] *)
Definition strip (s : str) : str := rstrip (lstrip s).

(** [s[a:b]] for [0 <= a] and [0 <= b]. *)
Definition slice (a b : nat) (s : str) : str := take (b - a) (drop a s).

(** Truth value of a string: [if s:]. *)
Definition nonempty (s : str) : bool :=
  match s with [] => false | _ :: _ => true end.

(** ** nodes.py *)

#[local] Set Warnings "-register-all".

(** [TextNode(value)] sets [raw = value]; [PlaceholderNode(raw, name, args)]
    keeps its arguments as a list of groups, one node list per argument. *)
Inductive Node : Type :=
| TextNode (value : str)
| PlaceholderNode (raw : str) (name : str) (args : list (list Node)).

Definition raw (node : Node) : str :=
  match node with
  | TextNode value => value
  | PlaceholderNode r _ _ => r
  end.

(** ** lexer.py *)

Definition ESCAPE_CHAR : ascii := "\"%char.

(** [next_char in ('{', '}', '\\', ';', ':')] *)
Definition is_special (c : ascii) : bool :=
  Ascii.eqb c "{" || Ascii.eqb c "}" || Ascii.eqb c "\" || Ascii.eqb c ";"
  || Ascii.eqb c ":".

(** The loop of [_find_separator]; [rest] is [text[i:]].  The result is the
    index of the separator, or [-1]. *)
Fixpoint _find_separator_loop (rest : str) (sep : ascii) (i : nat) (depth : Z)
    (escaped : bool) : Z :=
  match rest with
  | [] => (-1)%Z
  | char :: rest' =>
      if Ascii.eqb char ESCAPE_CHAR && negb escaped then
        _find_separator_loop rest' sep (S i) depth true
      else if escaped then
        _find_separator_loop rest' sep (S i) depth false
      else if Ascii.eqb char "{" then
        _find_separator_loop rest' sep (S i) (depth + 1)%Z false
      else if Ascii.eqb char "}" then
        _find_separator_loop rest' sep (S i) (depth - 1)%Z false
      else if Ascii.eqb char sep && (depth =? 0)%Z then
        Z.of_nat i
      else
        _find_separator_loop rest' sep (S i) depth false
  end.

Definition _find_separator (text : str) (sep : ascii) : Z :=
  _find_separator_loop text sep 0 0%Z false.

(** [if buffer: segments.append(buffer)] and, in [lex],
    [if buffer: nodes.append(TextNode(buffer))]. *)
Definition push_segment (segments : list str) (buffer : str) : list str :=
  if nonempty buffer then segments ++ [buffer] else segments.

(** The loop of [_split_arguments] followed by the final flush. *)
Fixpoint _split_arguments_loop (rest : str) (segments : list str)
    (buffer : str) (depth : Z) (escaped : bool) : list str :=
  match rest with
  | [] => push_segment segments buffer
  | char :: rest' =>
      if Ascii.eqb char ESCAPE_CHAR && negb escaped then
        _split_arguments_loop rest' segments (buffer ++ [char]) depth true
      else if escaped then
        _split_arguments_loop rest' segments (buffer ++ [char]) depth false
      else
        let depth :=
          if Ascii.eqb char "{" then (depth + 1)%Z
          else if Ascii.eqb char "}" then (depth - 1)%Z
          else depth in
        if Ascii.eqb char ";" && (depth =? 0)%Z then
          _split_arguments_loop rest' (push_segment segments buffer) []
            depth false
        else
          _split_arguments_loop rest' segments (buffer ++ [char]) depth false
  end.

Definition _split_arguments (args_str : str) : list str :=
  if nonempty args_str then _split_arguments_loop args_str [] [] 0%Z false
  else [].

(** The loop of [_parse_placeholder] up to the point where it returns from
    inside: [Some i] when the branch [depth == 0] is entered at index [i],
    [None] when the loop runs to the end of the text. *)
Fixpoint _parse_placeholder_loop (rest : str) (i : nat) (depth : Z)
    (escaped : bool) : option nat :=
  match rest with
  | [] => None
  | char :: rest' =>
      if Ascii.eqb char ESCAPE_CHAR && negb escaped then
        _parse_placeholder_loop rest' (S i) depth true
      else if escaped then
        _parse_placeholder_loop rest' (S i) depth false
      else if Ascii.eqb char "{" then
        _parse_placeholder_loop rest' (S i) (depth + 1)%Z false
      else if Ascii.eqb char "}" then
        if (depth - 1 =? 0)%Z then Some i
        else _parse_placeholder_loop rest' (S i) (depth - 1)%Z false
      else
        _parse_placeholder_loop rest' (S i) depth false
  end.

Definition push_text (nodes : list Node) (buffer : str) : list Node :=
  if nonempty buffer then nodes ++ [TextNode buffer] else nodes.

(** [lex], [_parse_placeholder] and [_parse_arguments] call each other.  The
    two helpers take the recursive call [lex(arg_str)] as [lex_rec]; it
    answers [None] when the nesting budget of [lex_fuel] below is used up. *)
Section lexer_body.
Variable lex_rec : str → option (list Node).

Definition _parse_arguments (inner : str)
    : option (str * list (list Node)) :=
  let colon_pos := _find_separator inner ":" in
  if (colon_pos =? -1)%Z then Some (strip inner, [])
  else
    let name := strip (take (Z.to_nat colon_pos) inner) in
    let args_str := drop (Z.to_nat (colon_pos + 1)) inner in
    let arg_strings := _split_arguments args_str in
    args ← mapM lex_rec arg_strings;
    Some (name, args).

Definition _parse_placeholder (text : str) : option (Node * nat) :=
  match _parse_placeholder_loop text 0 0%Z false with
  | Some i =>
      let raw := take (i + 1) text in
      let inner := slice 1 (length raw - 1) raw in
      if nonempty (strip inner) then
        '(name, args) ← _parse_arguments inner;
        Some (PlaceholderNode raw name args, i + 1)
      else Some (TextNode raw, i + 1)
  | None => Some (TextNode text, length text)
  end.

(** The loop of [lex] followed by the final flush.  [rest] is [text[i:]];
    [fuel] bounds the number of iterations.  A node is an object, so
    [if node:] always holds. *)
Fixpoint lex_loop (fuel : nat) (rest : str) (buffer : str)
    (nodes : list Node) : option (list Node) :=
  match rest with
  | [] => Some (push_text nodes buffer)
  | char :: rest' =>
      match fuel with
      | 0 => None
      | S fuel' =>
          (* [char == ESCAPE_CHAR and i + 1 < length]: the first branch
             is taken when both hold, with [next_char = text[i + 1]] *)
          match (if Ascii.eqb char ESCAPE_CHAR then rest' else []) with
          | next_char :: rest'' =>
              if is_special next_char then
                lex_loop fuel' rest'' (buffer ++ [next_char]) nodes
              else
                lex_loop fuel' rest' (buffer ++ [char]) nodes
          | [] =>
              if Ascii.eqb char "{" then
                '(node, consumed) ← _parse_placeholder rest;
                lex_loop fuel' (drop consumed rest) []
                  (push_text nodes buffer ++ [node])
              else
                lex_loop fuel' rest' (buffer ++ [char]) nodes
          end
      end
  end.
End lexer_body.

(** [lex] with a bound on the nesting of its calls to itself. *)
Fixpoint lex_fuel (fuel : nat) (text : str) : option (list Node) :=
  match fuel with
  | 0 => None
  | S fuel' =>
      if nonempty text then lex_loop (lex_fuel fuel') (length text) text [] []
      else Some []
  end.

(** [lex(text)].  A nested call reads a strictly shorter string, so the
    length of the text bounds the nesting ([lex_fuel_total]). *)
Definition lex (text : str) : list Node :=
  default [] (lex_fuel (S (length text)) text).

(** ** render_result.py and the handlers *)

(** What a call of a handler does: it returns a value or raises an
    [Exception].  A returned value is [None] or an object, which is
    represented by its [str()]. *)
Inductive Completion : Type :=
| Return (result : option str)
| Raise.

(** What a computation of the interpreter ends in: a value, or a raised
    [Exception]. *)
Inductive Outcome (A : Type) : Type :=
| Ok (a : A)
| Exception.
Arguments Ok {A} a.
Arguments Exception {A}.

Record RenderResult (Embed : Type) : Type := mkRenderResult {
  content : str;
  embeds : list Embed;
  emojis : list str
}.
Arguments mkRenderResult {Embed} content embeds emojis.
Arguments content {Embed} r.
Arguments embeds {Embed} r.
Arguments emojis {Embed} r.

(** A Variable handler is called as [handler(ctx)]; a Function handler as
    [handler(ctx, self.result, *evaluated_args)] and may mutate the result
    it is given, also when it raises. *)
Abbreviation VariableHandler Ctx := (Ctx → Completion).
Abbreviation FunctionHandler Ctx Embed :=
  (Ctx → RenderResult Embed → list str → Completion * RenderResult Embed).

Section engine.
Context {Ctx Embed : Type}.

Definition with_content (c : str) (r : RenderResult Embed)
    : RenderResult Embed :=
  {| content := c; embeds := embeds r; emojis := emojis r |}.

(** *** The monad of the interpreter: state [self.result], exceptions *)

Definition M (A : Type) : Type :=
  RenderResult Embed → Outcome A * RenderResult Embed.

Definition ret {A} (a : A) : M A := λ st, (Ok a, st).

Definition bind {A B} (m : M A) (k : A → M B) : M B :=
  λ st, match m st with
        | (Ok a, st') => k a st'
        | (Exception, st') => (Exception, st')
        end.

(** [try: body except Exception: handler]; the mutations made by [body]
    before it raised stay. *)
Definition try_except {A} (body handler : M A) : M A :=
  λ st, match body st with
        | (Ok a, st') => (Ok a, st')
        | (Exception, st') => handler st'
        end.

Definition get_result : M (RenderResult Embed) := λ st, (Ok st, st).
Definition get_content : M str := λ st, (Ok (content st), st).
Definition set_content (c : str) : M unit :=
  λ st, (Ok tt, with_content c st).

Definition call_variable (handler : VariableHandler Ctx) (ctx : Ctx)
    : M (option str) :=
  λ st, match handler ctx with
        | Return result => (Ok result, st)
        | Raise => (Exception, st)
        end.

Definition call_function (handler : FunctionHandler Ctx Embed) (ctx : Ctx)
    (evaluated_args : list str) : M (option str) :=
  λ st, match handler ctx st evaluated_args with
        | (Return result, st') => (Ok result, st')
        | (Raise, st') => (Exception, st')
        end.

(** [str(result) if result is not None else ""] *)
Definition stringify (result : option str) : str := default [] result.

Notation "'let*' x ':=' m 'in' k" := (bind m (λ x, k))
  (at level 10, x name, m at level 100, k at level 200).

(** ** interpreter.py *)

Definition MAX_NESTING : nat := 15.

Section interpreter.
Variable variables : gmap str (VariableHandler Ctx).
Variable functions : gmap str (FunctionHandler Ctx Embed).

(** [for arg_node in arg_group: arg_value += await self._eval(...)] *)
Fixpoint eval_group (ev : Node → M str) (arg_group : list Node)
    (arg_value : str) : M str :=
  match arg_group with
  | [] => ret arg_value
  | arg_node :: arg_group' =>
      let* v := ev arg_node in
      eval_group ev arg_group' (arg_value ++ v)
  end.

(** [for arg_group in node.args: ...; evaluated_args.append(arg_value)] *)
Fixpoint eval_groups (ev : Node → M str) (groups : list (list Node))
    (evaluated_args : list str) : M (list str) :=
  match groups with
  | [] => ret evaluated_args
  | arg_group :: groups' =>
      let* arg_value := eval_group ev arg_group [] in
      eval_groups ev groups' (evaluated_args ++ [arg_value])
  end.

(** [_eval_placeholder(node, ctx, depth)], given the fields of [node];
    [self_eval] is the method [self._eval]. *)
Definition _eval_placeholder (self_eval : Node → Ctx → nat → M str)
    (node_raw name : str) (args : list (list Node)) (ctx : Ctx)
    (depth : nat) : M str :=
  match (if args is [] then variables !! name else None) with
  | Some handler =>
      try_except
        (let* result := call_variable handler ctx in
         ret (stringify result))
        (ret [])
  | None =>
      match functions !! name with
      | Some handler =>
          try_except
            (let* evaluated_args :=
               eval_groups (λ arg_node, self_eval arg_node ctx (depth + 1))
                 args [] in
             let* result := call_function handler ctx evaluated_args in
             ret (stringify result))
            (ret [])
      | None => ret node_raw
      end
  end.

Fixpoint _eval (node : Node) (ctx : Ctx) (depth : nat) {struct node}
    : M str :=
  if MAX_NESTING <? depth then ret (raw node)
  else
    match node with
    | TextNode value => ret value
    | PlaceholderNode node_raw name args =>
        _eval_placeholder _eval node_raw name args ctx depth
    end.

(** The body of the loop of [Interpreter.render].  The statement
    [self.result.content += await self._eval(node, ctx, 0)] reads
    [self.result.content] before it evaluates its right-hand side. *)
Definition render_node (self_eval : Node → Ctx → nat → M str)
    (node : Node) (ctx : Ctx) : M unit :=
  try_except
    (let* old := get_content in
     let* s := self_eval node ctx 0 in
     set_content (old ++ s))
    (let* cur := get_content in
     set_content (cur ++ raw node)).

Fixpoint render_nodes (self_eval : Node → Ctx → nat → M str)
    (nodes : list Node) (ctx : Ctx) : M unit :=
  match nodes with
  | [] => ret tt
  | node :: nodes' =>
      let* _ := render_node self_eval node ctx in
      render_nodes self_eval nodes' ctx
  end.

Definition Interpreter_render (nodes : list Node) (ctx : Ctx)
    : M (RenderResult Embed) :=
  let* _ := render_nodes _eval nodes ctx in
  get_result.

(** ** interpolator.py *)

(** [RenderResult(content="", embeds=[], emojis=[])] *)
Definition empty_result : RenderResult Embed :=
  {| content := []; embeds := []; emojis := [] |}.

(** [InterpolationEngine.render(text, ctx)], with the two dictionaries
    the engine was built with; the interpreter starts from a fresh
    result. *)
Definition InterpolationEngine_render (text : str) (ctx : Ctx)
    : Outcome (RenderResult Embed) :=
  if nonempty text then
    fst (Interpreter_render (lex text) ctx empty_result)
  else Ok empty_result.
End interpreter.
End engine.

Arguments M Embed A : clear implicits.

(** ** Notions used in the statements *)

(** What a placeholder contributes once its handler has completed:
    the [str()] of a value, nothing for [None], nothing when it raised. *)
Definition output_of (c : Completion) : str :=
  match c with
  | Return result => stringify result
  | Raise => []
  end.

(** A computation of the interpreter that ends in a value from every
    state. *)
Definition returns {Embed A} (m : M Embed A) : Prop :=
  ∀ st : RenderResult Embed, ∃ a st', m st = (Ok a, st').



(** ** Registries used as examples *)

(** [greet] registered in both namespaces: the Variable returns ["hello"],
    the Function returns its arguments joined. *)
Definition greet_variables : gmap str (VariableHandler unit) :=
  {[ ("greet" : str) := λ _, Return (Some ("hello" : str)) ]}.
Definition greet_functions : gmap str (FunctionHandler unit unit) :=
  {[ ("greet" : str) := λ _ st args, (Return (Some (concat args)), st) ]}.

(** The Variable [v] returns placeholder syntax naming the Variable
    [name]. *)
Definition inert_variables : gmap str (VariableHandler unit) :=
  {[ ("v" : str) := λ _, Return (Some ("{name}" : str));
     ("name" : str) := λ _, Return (Some ("Ann" : str)) ]}.

(** [nested name k inner] is the template of [k] placeholders [{name:...}]
    around [inner], each the argument of the one around it. *)
Fixpoint nested (name : str) (k : nat) (inner : str) : str :=
  match k with
  | 0 => inner
  | S k' => "{" ++ name ++ ":" ++ nested name k' inner ++ "}"
  end.


(** ** The grammar, in the words of the specification *)

(** For each character of [s], whether it is a separator: the character
    [sep], not escaped, at brace depth 0.  The depth goes up on an unescaped
    ["{"] and down on an unescaped ["}"]; an unescaped backslash escapes the
    character after it. *)
Fixpoint separator_marks (sep : ascii) (s : str) (depth : Z) (escaped : bool)
    : list bool :=
  match s with
  | [] => []
  | c :: s' =>
      if escaped then false :: separator_marks sep s' depth false
      else if Ascii.eqb c "\" then false :: separator_marks sep s' depth true
      else if Ascii.eqb c "{" then
        false :: separator_marks sep s' (depth + 1)%Z false
      else if Ascii.eqb c "}" then
        false :: separator_marks sep s' (depth - 1)%Z false
      else (Ascii.eqb c sep && (depth =? 0)%Z)
           :: separator_marks sep s' depth false
  end.

(** The separators of an arguments portion. *)
Definition separators (s : str) : list bool := separator_marks ";" s 0%Z false.

(** [s] cut at the marked characters, which are left out; [cur] is the piece
    that is being read. *)
Fixpoint pieces (s : str) (marks : list bool) (cur : str) : list str :=
  match s, marks with
  | c :: s', mark :: marks' =>
      if mark then cur :: pieces s' marks' []
      else pieces s' marks' (cur ++ [c])
  | _, _ => [cur]
  end.

(** The Function [f] returns the arguments it was called with, each in
    square brackets.  [sum] adds the arguments that are unsigned decimal
    numbers and skips the others; [concat] joins its arguments with a
    vertical bar. *)
Definition show_args (args : list str) : str :=
  concat (map (λ arg : str, "[" ++ arg ++ "]") args).

Definition digit (c : ascii) : option nat :=
  let n := nat_of_ascii c in
  if (48 <=? n) && (n <=? 57) then Some (n - 48) else None.

Fixpoint unsigned_of_str (s : str) (acc : nat) : option nat :=
  match s with
  | [] => Some acc
  | c :: s' => d ← digit c; unsigned_of_str s' (10 * acc + d)
  end.

Definition sum_args (args : list str) : nat :=
  foldl (λ total arg,
           match (if nonempty arg then unsigned_of_str arg 0 else None) with
           | Some n => total + n
           | None => total
           end) 0 args.

Definition str_of_nat (n : nat) : str :=
  list_ascii_of_string (NilZero.string_of_uint (Nat.to_uint n)).

Definition example_functions : gmap str (FunctionHandler unit unit) :=
  {[ ("f" : str) := λ _ st args, (Return (Some (show_args args)), st);
     ("sum" : str) := λ _ st args, (Return (Some (str_of_nat (sum_args args))), st);
     ("concat" : str) :=
       λ _ st args, (Return (Some (concat (map (λ a : str, a ++ "|") args))), st) ]}.

(** A character that neither starts an escape nor a placeholder. *)
Definition plain (c : ascii) : Prop := c ≠ "\"%char ∧ c ≠ "{"%char.

(** The brace depth and the escape state after [s] has been read, from the
    depth [depth] and the escape state [escaped]. *)
Fixpoint scan_braces (s : str) (depth : Z) (escaped : bool) : Z * bool :=
  match s with
  | [] => (depth, escaped)
  | c :: s' =>
      if escaped then scan_braces s' depth false
      else if Ascii.eqb c "\" then scan_braces s' depth true
      else if Ascii.eqb c "{" then scan_braces s' (depth + 1)%Z false
      else if Ascii.eqb c "}" then scan_braces s' (depth - 1)%Z false
      else scan_braces s' depth false
  end.

Definition brace_depth (s : str) : Z := (scan_braces s 0%Z false).1.

(** The brace depth of [text] never returns to 0 before the end. *)
Definition unclosed (text : str) : Prop :=
  ∀ k, 0 < k ≤ length text → brace_depth (take k text) ≠ 0%Z.

(** Empty or whitespace-only. *)
Definition blank (s : str) : Prop := Forall (λ c, isspace c = true) s.


(** [s] is a span of [text]. *)
Definition span_of (s text : str) : Prop := ∃ pre post, text = pre ++ s ++ post.



(** The shape of a node that [lex] makes: a text node is not empty; a
    placeholder has its raw text in braces around an inner text that is not
    blank, a name without white space around it, and no empty argument
    group. *)
Inductive well_formed : Node → Prop :=
| well_formed_text value : value ≠ [] → well_formed (TextNode value)
| well_formed_placeholder node_raw name args inner :
    node_raw = "{" ++ inner ++ "}" →
    ¬ blank inner →
    strip name = name →
    Forall (λ arg_group, arg_group ≠ [] ∧ Forall well_formed arg_group) args →
    well_formed (PlaceholderNode node_raw name args).

(** ** render_result.py: the methods of [RenderResult] *)

(** [self.embeds.append(embed)] *)
Definition add_embed {Embed : Type} (embed : Embed)
    (self : RenderResult Embed) : RenderResult Embed :=
  {| content := content self;
     embeds := embeds self ++ [embed];
     emojis := emojis self |}.

(** [if emoji not in self.emojis: self.emojis.append(emoji)] *)
Definition add_emoji {Embed : Type} (emoji : str)
    (self : RenderResult Embed) : RenderResult Embed :=
  if bool_decide (emoji ∈ emojis self) then self
  else {| content := content self;
          embeds := embeds self;
          emojis := emojis self ++ [emoji] |}.

(** [self.merge(other)], for a result [other] that is not [self]; the
    value is [self] after the call. *)
Definition merge {Embed : Type} (self other : RenderResult Embed)
    : RenderResult Embed :=
  foldl (λ r emoji, add_emoji emoji r)
    {| content := content self ++ content other;
       embeds := embeds self ++ embeds other;
       emojis := emojis self |}
    (emojis other).

(** ** placeholders.py: the Function [emoji]

    [async def emoji(self, ctx, result, emoji)] adds its argument to the
    emojis of the result and returns [""]; called with another number of
    arguments it raises [TypeError] before it does anything. *)
Definition emoji_handler {Ctx Embed : Type} : FunctionHandler Ctx Embed :=
  λ _ result args,
    match args with
    | [emoji] => (Return (Some []), add_emoji emoji result)
    | _ => (Raise, result)
    end.

Definition emoji_functions : gmap str (FunctionHandler unit unit) :=
  {[ ("emoji" : str) := emoji_handler ]}.

(** ** decorators.py *)

Inductive PlaceholderType : Type := VARIABLE | FUNCTION.

(** A method of the placeholder manager: its [__name__], the attributes
    [__placeholder_type__] and [__placeholder_name__] when the decorator
    has set them, and what a call of it does, as [method(ctx)] and as
    [method(ctx, result, *args)]. *)
Record Method (Ctx Embed : Type) : Type := mkMethod {
  func_name : str;
  placeholder_attrs : option (PlaceholderType * str);
  call_with_ctx : VariableHandler Ctx;
  call_with_args : FunctionHandler Ctx Embed
}.
Arguments mkMethod {Ctx Embed} func_name placeholder_attrs call_with_ctx
  call_with_args.
Arguments func_name {Ctx Embed} m.
Arguments placeholder_attrs {Ctx Embed} m.
Arguments call_with_ctx {Ctx Embed} m.
Arguments call_with_args {Ctx Embed} m.

(** [func.__name__.replace("_", ".")] *)
Definition replace_underscores (s : str) : str :=
  map (λ c, if Ascii.eqb c "_" then "."%char else c) s.

(** [placeholder(use=use)(func)] *)
Definition placeholder {Ctx Embed : Type} (use : PlaceholderType)
    (func : Method Ctx Embed) : Method Ctx Embed :=
  {| func_name := func_name func;
     placeholder_attrs := Some (use, replace_underscores (func_name func));
     call_with_ctx := call_with_ctx func;
     call_with_args := call_with_args func |}.

(** ** interpolator.py: the registry *)

(** [d[k] = v] on a dictionary, kept as the list of its items in the order
    of insertion: the value of a key that is there is replaced in place. *)
Fixpoint dict_set {V : Type} (k : str) (v : V) (d : list (str * V))
    : list (str * V) :=
  match d with
  | [] => [(k, v)]
  | (k', v') :: d' =>
      if decide (k' = k) then (k', v) :: d' else (k', v') :: dict_set k v d'
  end.

Record InterpolationEngine (Ctx Embed : Type) : Type := mkEngine {
  _variables : list (str * Method Ctx Embed);
  _functions : list (str * Method Ctx Embed)
}.
Arguments mkEngine {Ctx Embed} _variables _functions.
Arguments _variables {Ctx Embed} i.
Arguments _functions {Ctx Embed} i.

(** [attr_name.startswith('_')] *)
Definition is_private (attr_name : str) : bool :=
  match attr_name with
  | c :: _ => Ascii.eqb c "_"
  | [] => false
  end.

(** One turn of the loop of [__init__], for the attribute [attr] that
    [getattr] finds under [attr_name]. *)
Definition discover {Ctx Embed : Type} (self : InterpolationEngine Ctx Embed)
    (item : str * Method Ctx Embed) : InterpolationEngine Ctx Embed :=
  let '(attr_name, attr) := item in
  if is_private attr_name then self
  else
    match placeholder_attrs attr with
    | Some (VARIABLE, name) =>
        mkEngine (dict_set name attr (_variables self)) (_functions self)
    | Some (FUNCTION, name) =>
        mkEngine (_variables self) (dict_set name attr (_functions self))
    | None => self
    end.

(** [InterpolationEngine(placeholder_manager)]; the manager is given by
    its attributes, in the order of [dir]. *)
Definition InterpolationEngine_init {Ctx Embed : Type}
    (placeholder_manager : list (str * Method Ctx Embed))
    : InterpolationEngine Ctx Embed :=
  foldl discover (mkEngine [] []) placeholder_manager.

(** [get_registered_placeholders()]: the names of the Variables and the
    names of the Functions. *)
Definition get_registered_placeholders {Ctx Embed : Type}
    (self : InterpolationEngine Ctx Embed) : list str * list str :=
  (map fst (_variables self), map fst (_functions self)).

(** The dictionaries that [render] hands to the interpreter. *)
Definition engine_variables {Ctx Embed : Type}
    (self : InterpolationEngine Ctx Embed) : gmap str (VariableHandler Ctx) :=
  call_with_ctx <$> list_to_map (_variables self).
Definition engine_functions {Ctx Embed : Type}
    (self : InterpolationEngine Ctx Embed)
    : gmap str (FunctionHandler Ctx Embed) :=
  call_with_args <$> list_to_map (_functions self).


(** The attribute [item] of the manager is registered under [name] as a
    placeholder of the type [use]: it is public and the decorator has
    marked it so. *)
Definition registers_as {Ctx Embed : Type} (use : PlaceholderType)
    (name : str) (item : str * Method Ctx Embed) : Prop :=
  is_private item.1 = false ∧ placeholder_attrs item.2 = Some (use, name).

(** A manager, by its attributes in the order of [dir]: a private method,
    a method that the decorator has not seen, a Function, and two
    Variables whose functions have the same [__name__]. *)
Definition example_method (name reply : str) : Method unit unit :=
  mkMethod name None (λ _, Return (Some reply))
    (λ _ st _, (Return (Some reply), st)).
Definition example_manager : list (str * Method unit unit) :=
  [ ("_secret" : str, placeholder VARIABLE (example_method "_secret" "s"));
    ("alias" : str, placeholder VARIABLE (example_method "user_name" "first"));
    ("helper" : str, example_method "helper" "h");
    ("sum" : str, placeholder FUNCTION (example_method "sum" "0"));
    ("user_name" : str,
      placeholder VARIABLE (example_method "user_name" "second")) ].

(** Induction on the AST, through the argument groups. *)
Section Node_nested_ind.
Variable P : Node → Prop.
Hypothesis P_text : ∀ value, P (TextNode value).
Hypothesis P_placeholder : ∀ node_raw name args,
  Forall (Forall P) args → P (PlaceholderNode node_raw name args).

Fixpoint Node_nested_ind (node : Node) : P node :=
  match node with
  | TextNode value => P_text value
  | PlaceholderNode node_raw name args =>
      P_placeholder node_raw name args
        ((fix groups (gs : list (list Node)) : Forall (Forall P) gs :=
            match gs with
            | [] => ListDef.Forall_nil _
            | g :: gs' =>
                ListDef.Forall_cons _ _ _
                  ((fix group (ns : list Node) : Forall P ns :=
                      match ns with
                      | [] => ListDef.Forall_nil _
                      | n :: ns' =>
                          ListDef.Forall_cons _ _ _ (Node_nested_ind n) (group ns')
                      end) g)
                  (groups gs')
            end) args)
  end.
End Node_nested_ind.

(** * The lexer *)

(** ** [lex] is total *)

Lemma _find_separator_loop_bound (rest : str) (sep : ascii) :
  ∀ i depth escaped,
    let r := _find_separator_loop rest sep i depth escaped in
    r = (-1)%Z ∨ (Z.of_nat i ≤ r < Z.of_nat (i + length rest))%Z.
Proof.
  induction rest as [|char rest IH]; intros i depth escaped; simpl;
    [by left|].
  repeat case_match;
    try (destruct (IH (S i) depth true) as [->|?]; [by left|right; lia]);
    try (destruct (IH (S i) depth false) as [->|?]; [by left|right; lia]);
    try (destruct (IH (S i) (depth + 1)%Z false) as [->|?];
         [by left|right; lia]);
    try (destruct (IH (S i) (depth - 1)%Z false) as [->|?];
         [by left|right; lia]).
  right; lia.
Qed.

Lemma push_segment_Forall (P : str → Prop) (segments : list str)
    (buffer : str) :
  Forall P segments → (buffer ≠ [] → P buffer) →
  Forall P (push_segment segments buffer).
Proof.
  intros Hs Hb. unfold push_segment. destruct buffer; [done|].
  apply Forall_app. split; [done|]. apply Forall_singleton. by apply Hb.
Qed.

(** Every segment is a piece of the argument string. *)
Lemma _split_arguments_loop_length (n : nat) (rest : str) :
  ∀ segments buffer depth escaped,
    Forall (λ seg, length seg ≤ n) segments →
    length buffer + length rest ≤ n →
    Forall (λ seg, length seg ≤ n)
      (_split_arguments_loop rest segments buffer depth escaped).
Proof.
  induction rest as [|char rest IH]; intros segments buffer depth escaped
    Hs Hb; simpl in *.
  - apply push_segment_Forall; [done|]. intros _. lia.
  - repeat case_match; apply IH; try done;
      rewrite ?length_app; simpl; try lia;
      (apply push_segment_Forall; [done|]; intros _; lia).
Qed.

Lemma _split_arguments_length (args_str : str) :
  Forall (λ seg, length seg ≤ length args_str) (_split_arguments args_str).
Proof.
  unfold _split_arguments. destruct (nonempty args_str); [|done].
  by apply _split_arguments_loop_length.
Qed.

Lemma _parse_placeholder_loop_bound (rest : str) :
  ∀ i depth escaped j,
    _parse_placeholder_loop rest i depth escaped = Some j →
    i ≤ j < i + length rest.
Proof.
  induction rest as [|char rest IH]; intros i depth escaped j; simpl;
    [done|].
  repeat case_match; intros Hj; try (apply IH in Hj; lia).
  injection Hj as <-. lia.
Qed.

Section lexer_total.
Variable lex_rec : str → option (list Node).

(** What [_parse_placeholder] consumes is the raw text of its node. *)
Lemma _parse_placeholder_consumed (text : str) (node : Node)
    (consumed : nat) :
  _parse_placeholder lex_rec text = Some (node, consumed) →
  consumed ≤ length text ∧ (text ≠ [] → 1 ≤ consumed)
  ∧ raw node = take consumed text.
Proof.
  unfold _parse_placeholder.
  destruct (_parse_placeholder_loop text 0 0 false) as [i|] eqn:Hi.
  - apply _parse_placeholder_loop_bound in Hi.
    destruct (nonempty _).
    + destruct (_parse_arguments _ _) as [[name args]|]; [|done].
      simpl. intros [= <- <-]. simpl. split; [lia|]. split; [lia|done].
    + intros [= <- <-]. simpl. split; [lia|]. split; [lia|done].
  - intros [= <- <-]. simpl. split; [lia|]. split.
    + destruct text; [done|]. simpl. lia.
    + by rewrite firstn_all.
Qed.

Lemma _parse_arguments_is_Some (inner : str) :
  (∀ s, length s < length inner → is_Some (lex_rec s)) →
  is_Some (_parse_arguments lex_rec inner).
Proof.
  intros Hrec. unfold _parse_arguments.
  pose proof (_find_separator_loop_bound inner ":" 0 0 false) as Hb.
  fold (_find_separator inner ":") in Hb. simpl in Hb.
  destruct (Z.eqb_spec (_find_separator inner ":") (-1)); [eauto|].
  destruct Hb as [?|Hb]; [done|].
  set (args_str := drop _ inner).
  assert (Hlen : length args_str < length inner).
  { unfold args_str. rewrite length_drop. lia. }
  destruct (mapM lex_rec (_split_arguments args_str)) as [args|] eqn:E;
    [simpl; eauto|].
  exfalso. apply eq_None_not_Some in E. apply E, mapM_is_Some.
  eapply Forall_impl; [apply _split_arguments_length|].
  intros seg Hseg. apply Hrec. simpl in Hseg. lia.
Qed.

Lemma _parse_placeholder_is_Some (text : str) :
  (∀ s, length s < length text → is_Some (lex_rec s)) →
  is_Some (_parse_placeholder lex_rec text).
Proof.
  intros Hrec. unfold _parse_placeholder.
  destruct (_parse_placeholder_loop text 0 0 false) as [i|] eqn:Hi; [|eauto].
  apply _parse_placeholder_loop_bound in Hi.
  destruct (nonempty _) eqn:Hne; [|eauto].
  set (inner := slice _ _ _) in *.
  destruct (_parse_arguments_is_Some inner) as [[name args] ->];
    [|simpl; eauto].
  intros s Hs. apply Hrec.
  assert (length inner < length text); [|lia].
  unfold inner, slice in *.
  rewrite length_take, length_drop, !length_take. 
  destruct text; simpl in *; lia.
Qed.

Lemma lex_loop_is_Some (fuel : nat) :
  ∀ rest buffer nodes,
    length rest ≤ fuel →
    (∀ s, length s < length rest → is_Some (lex_rec s)) →
    is_Some (lex_loop lex_rec fuel rest buffer nodes).
Proof.
  induction fuel as [|fuel IH]; intros rest buffer nodes Hfuel Hrec;
    destruct rest as [|char rest]; simpl in *; eauto; [lia|].
  destruct (if Ascii.eqb char ESCAPE_CHAR then rest else [])
    as [|next_char rest''] eqn:Hesc.
  - destruct (Ascii.eqb char "{").
    + destruct (_parse_placeholder_is_Some (char :: rest))
        as [[node consumed] Hp]; [done|].
      rewrite Hp. simpl.
      apply _parse_placeholder_consumed in Hp as (Hle & Hge & _).
      specialize (Hge ltac:(done)).
      destruct consumed as [|consumed]; [lia|]. simpl.
      apply IH; [rewrite length_drop; lia|].
      intros s Hs. apply Hrec. rewrite length_drop in Hs. lia.
    + apply IH; [lia|]. intros s Hs. apply Hrec. lia.
  - destruct (Ascii.eqb char ESCAPE_CHAR); [|done]. subst rest. simpl in *.
    destruct (is_special next_char); apply IH; simpl; try lia;
      intros s Hs; apply Hrec; simpl in *; lia.
Qed.
End lexer_total.

(** Enough fuel: a nested call of [lex] reads a shorter string. *)
Lemma lex_fuel_total (fuel : nat) :
  ∀ text, length text < fuel → is_Some (lex_fuel fuel text).
Proof.
  induction fuel as [|fuel IH]; intros text Hlen; [lia|]. simpl.
  destruct (nonempty text); [|eauto].
  apply lex_loop_is_Some; [done|]. intros s Hs. apply IH. lia.
Qed.

(** ** The result of [lex] does not depend on the fuel *)

Section lexer_mono.
Variables lex_rec lex_rec' : str → option (list Node).
Hypothesis lex_rec_le : ∀ s r, lex_rec s = Some r → lex_rec' s = Some r.

Lemma _parse_arguments_mono (inner : str) r :
  _parse_arguments lex_rec inner = Some r →
  _parse_arguments lex_rec' inner = Some r.
Proof.
  unfold _parse_arguments. destruct (_ =? _)%Z; [done|].
  destruct (mapM lex_rec _) as [args|] eqn:E; [|done]. simpl. intros <-.
  apply mapM_Some in E.
  assert (E' : mapM lex_rec' (_split_arguments
                 (drop (Z.to_nat (_find_separator inner ":" + 1)) inner))
               = Some args).
  { apply mapM_Some. eapply Forall2_impl; [exact E|]. apply lex_rec_le. }
  by rewrite E'.
Qed.

Lemma _parse_placeholder_mono (text : str) r :
  _parse_placeholder lex_rec text = Some r →
  _parse_placeholder lex_rec' text = Some r.
Proof.
  unfold _parse_placeholder.
  destruct (_parse_placeholder_loop text 0 0 false) as [i|]; [|done].
  destruct (nonempty _); [|done].
  destruct (_parse_arguments lex_rec _) as [[name args]|] eqn:E; [|done].
  by rewrite (_parse_arguments_mono _ _ E).
Qed.

Lemma lex_loop_mono (fuel : nat) :
  ∀ fuel' rest buffer nodes r,
    fuel ≤ fuel' →
    lex_loop lex_rec fuel rest buffer nodes = Some r →
    lex_loop lex_rec' fuel' rest buffer nodes = Some r.
Proof.
  induction fuel as [|fuel IH]; intros fuel' rest buffer nodes r Hle;
    destruct rest as [|char rest]; simpl.
  - by destruct fuel'.
  - done.
  - by destruct fuel'.
  - destruct fuel' as [|fuel']; [lia|]. simpl.
    destruct (if Ascii.eqb char ESCAPE_CHAR then rest else [])
      as [|next_char rest''].
    + destruct (Ascii.eqb char "{"); [|apply IH; lia].
      destruct (_parse_placeholder lex_rec _) as [[node consumed]|] eqn:E;
        [|done].
      rewrite (_parse_placeholder_mono _ _ E). simpl. apply IH; lia.
    + destruct (is_special next_char); apply IH; lia.
Qed.
End lexer_mono.

Lemma lex_fuel_mono (fuel : nat) :
  ∀ fuel' text r,
    fuel ≤ fuel' → lex_fuel fuel text = Some r → lex_fuel fuel' text = Some r.
Proof.
  induction fuel as [|fuel IH]; intros fuel' text r Hle; [done|].
  destruct fuel' as [|fuel']; [lia|]. simpl.
  destruct (nonempty text); [|done].
  apply lex_loop_mono; [|done]. intros s r'. apply IH. lia.
Qed.

Lemma lex_fuel_lex (fuel : nat) (text : str) r :
  lex_fuel fuel text = Some r → lex text = r.
Proof.
  intros H. unfold lex.
  destruct (Nat.le_gt_cases fuel (S (length text))) as [Hle|Hgt].
  - by rewrite (lex_fuel_mono _ _ _ _ Hle H).
  - destruct (lex_fuel_total (S (length text)) text) as [r' Hr']; [lia|].
    rewrite Hr'. simpl.
    assert (lex_fuel fuel text = Some r') as Hr''
      by (eapply lex_fuel_mono; [|exact Hr']; lia).
    congruence.
Qed.

(** [lex] satisfies the equation of the source: it is the loop, run with
    [lex] itself for the nested calls. *)
Lemma lex_unfold (text : str) :
  lex_loop (λ s, Some (lex s)) (length text) text [] [] = Some (lex text).
Proof.
  destruct (lex_fuel_total (S (length text)) text) as [r Hr]; [lia|].
  rewrite (lex_fuel_lex _ _ _ Hr).
  simpl in Hr. destruct text as [|c text]; [by injection Hr as <-|].
  simpl nonempty in Hr. cbv iota in Hr.
  eapply lex_loop_mono; [| |exact Hr]; [|done].
  intros s r' Hs. by rewrite (lex_fuel_lex _ _ _ Hs).
Qed.

Lemma lex_loop_lex (fuel : nat) (text : str) r :
  lex_loop (λ s, Some (lex s)) fuel text [] [] = Some r → lex text = r.
Proof.
  intros H. pose proof (lex_unfold text) as Hu.
  destruct (Nat.le_gt_cases fuel (length text)) as [Hle|Hgt].
  - pose proof (lex_loop_mono _ _ (λ _ _ Hs, Hs) _ _ _ _ _ _ Hle H). congruence.
  - assert (length text ≤ fuel) as Hle by lia.
    pose proof (lex_loop_mono _ _ (λ _ _ Hs, Hs) _ _ _ _ _ _ Hle Hu).
    congruence.
Qed.

(** The calls of [lex] nest as deep as the placeholders of the template:
    forty placeholders inside one another need forty-one nested calls. *)
Remark lex_nesting_follows_template :
  lex_fuel 40 (nested "a" 40 "x") = None
  ∧ is_Some (lex_fuel 41 (nested "a" 40 "x")).
Proof. split; [by vm_compute|]. vm_compute. eauto. Qed.

(** * The interpreter *)

Section interpreter_facts.
Context {Ctx Embed : Type}.
Variable variables : gmap str (VariableHandler Ctx).
Variable functions : gmap str (FunctionHandler Ctx Embed).

Abbreviation eval := (_eval variables functions).
Abbreviation state := (RenderResult Embed).
Abbreviation engine_render :=
  (InterpolationEngine_render variables functions).

Lemma _eval_unfold (node : Node) (ctx : Ctx) (depth : nat) :
  eval node ctx depth =
  if MAX_NESTING <? depth then ret (raw node)
  else match node with
       | TextNode value => ret value
       | PlaceholderNode node_raw name args =>
           _eval_placeholder variables functions eval node_raw name args
             ctx depth
       end.
Proof. destruct node; reflexivity. Qed.

Lemma try_except_returns {A} (body handler : M Embed A) :
  returns handler → returns (try_except body handler).
Proof.
  intros Hh st. unfold try_except.
  destruct (body st) as [[a|] st']; eauto.
Qed.

Lemma eval_group_returns (ev : Node → M Embed str) (arg_group : list Node) :
  Forall (λ n, returns (ev n)) arg_group →
  ∀ arg_value, returns (eval_group ev arg_group arg_value).
Proof.
  induction 1 as [|n ns Hn _ IH]; intros acc st; simpl.
  - unfold ret. eauto.
  - unfold bind. destruct (Hn st) as (s & st' & ->). apply IH.
Qed.

Lemma eval_groups_returns (ev : Node → M Embed str)
    (groups : list (list Node)) :
  Forall (Forall (λ n, returns (ev n))) groups →
  ∀ evaluated_args, returns (eval_groups ev groups evaluated_args).
Proof.
  induction 1 as [|g gs Hg _ IH]; intros acc st; simpl.
  - unfold ret. eauto.
  - unfold bind.
    destruct (eval_group_returns ev g Hg [] st) as (s & st' & ->). apply IH.
Qed.

(** [_eval] never raises: what a handler raises is caught inside. *)
Lemma _eval_returns (node : Node) :
  ∀ ctx depth, returns (eval node ctx depth).
Proof.
  induction node as [value|node_raw name args IH] using Node_nested_ind;
    intros ctx depth; rewrite _eval_unfold;
    destruct (MAX_NESTING <? depth); try (intros st; unfold ret; eauto; fail).
  unfold _eval_placeholder.
  destruct (if args is [] then variables !! name else None).
  { apply try_except_returns. intros st. unfold ret. eauto. }
  destruct (functions !! name).
  { apply try_except_returns. intros st. unfold ret. eauto. }
  intros st. unfold ret. eauto.
Qed.

(** The arguments a Function handler is called with: the evaluation of the
    groups cannot raise, so the [try] block reaches the call. *)
Lemma eval_args_returns (args : list (list Node)) (ctx : Ctx) (depth : nat) :
  returns (eval_groups (λ arg_node, eval arg_node ctx (depth + 1)) args []).
Proof.
  apply eval_groups_returns.
  apply Forall_forall; intros g _. apply Forall_forall; intros n _.
  apply _eval_returns.
Qed.


Lemma _eval_shallow (node : Node) (ctx : Ctx) (depth : nat) :
  depth ≤ MAX_NESTING →
  eval node ctx depth =
  match node with
  | TextNode value => ret value
  | PlaceholderNode node_raw name args =>
      _eval_placeholder variables functions eval node_raw name args ctx depth
  end.
Proof.
  intros H. rewrite _eval_unfold.
  destruct (Nat.ltb_spec MAX_NESTING depth); [lia | reflexivity].
Qed.

(** A placeholder resolved as a Variable. *)
Lemma _eval_variable node_raw name ctx depth handler (st : state) :
  depth ≤ MAX_NESTING → variables !! name = Some handler →
  eval (PlaceholderNode node_raw name []) ctx depth st
  = (Ok (output_of (handler ctx)), st).
Proof.
  intros Hd Hv. rewrite _eval_shallow by done.
  unfold _eval_placeholder. simpl. rewrite Hv.
  unfold try_except, bind, call_variable, ret, output_of.
  destruct (handler ctx); reflexivity.
Qed.

(** A placeholder resolved as a Function: the groups are evaluated one
    level deeper, then the handler is called with the resulting strings. *)
Lemma _eval_function node_raw name args ctx depth handler (st : state) :
  depth ≤ MAX_NESTING →
  (if args is [] then variables !! name else None) = None →
  functions !! name = Some handler →
  ∃ evaluated_args st1,
    eval_groups (λ arg_node, eval arg_node ctx (depth + 1)) args [] st
    = (Ok evaluated_args, st1)
    ∧ eval (PlaceholderNode node_raw name args) ctx depth st
      = (Ok (output_of (handler ctx st1 evaluated_args).1),
         (handler ctx st1 evaluated_args).2).
Proof.
  intros Hd Hv Hf.
  destruct (eval_args_returns args ctx depth st) as (vs & st1 & Hargs).
  exists vs, st1. split; [done|].
  rewrite _eval_shallow by done.
  unfold _eval_placeholder. rewrite Hv, Hf.
  unfold try_except, bind. rewrite Hargs.
  unfold call_function, ret, output_of.
  destruct (handler ctx st1 vs) as [[r|] st2]; reflexivity.
Qed.

Lemma _eval_unknown node_raw name args ctx depth (st : state) :
  (if args is [] then variables !! name else None) = None →
  functions !! name = None →
  eval (PlaceholderNode node_raw name args) ctx depth st = (Ok node_raw, st).
Proof.
  intros Hv Hf. rewrite _eval_unfold.
  destruct (MAX_NESTING <? depth); [reflexivity|].
  unfold _eval_placeholder. rewrite Hv, Hf. reflexivity.
Qed.

(** *** [Interpreter.render] *)


(** One turn of the loop of [render], for any evaluator: the node
    contributes its value, or its raw text when the evaluator raised, and
    the loop goes on with the remaining nodes. *)
Lemma render_nodes_cons (self_eval : Node → Ctx → nat → M Embed str)
    (node : Node) (nodes : list Node) (ctx : Ctx) (st : RenderResult Embed) :
  render_nodes self_eval (node :: nodes) ctx st
  = render_nodes self_eval nodes ctx
      match self_eval node ctx 0 st with
      | (Ok s, st') => with_content (content st ++ s) st'
      | (Exception, st') => with_content (content st' ++ raw node) st'
      end.
Proof.
  simpl. unfold bind at 1, render_node, try_except, bind, get_content,
    set_content.
  destruct (self_eval node ctx 0 st) as [[s|] st']; reflexivity.
Qed.

Lemma render_nodes_returns (self_eval : Node → Ctx → nat → M Embed str)
    (nodes : list Node) (ctx : Ctx) :
  returns (render_nodes self_eval nodes ctx).
Proof.
  induction nodes as [|node nodes IH]; intros st.
  - simpl. unfold ret. eauto.
  - rewrite render_nodes_cons. apply IH.
Qed.

Lemma render_nodes_eval (node : Node) (nodes : list Node) (ctx : Ctx)
    (st st' : RenderResult Embed) (s : str) :
  eval node ctx 0 st = (Ok s, st') →
  render_nodes eval (node :: nodes) ctx st
  = render_nodes eval nodes ctx (with_content (content st ++ s) st').
Proof. intros H. rewrite render_nodes_cons, H. reflexivity. Qed.



(** Rendering a template that is lexed to the nodes [nodes]. *)
Lemma InterpolationEngine_render_lex (text : str) (ctx : Ctx)
    (nodes : list Node) (st : RenderResult Embed) :
  lex text = nodes → nodes ≠ [] →
  render_nodes eval nodes ctx empty_result = (Ok tt, st) →
  InterpolationEngine_render variables functions text ctx = Ok st.
Proof.
  intros Hlex Hne Hrun. unfold InterpolationEngine_render.
  destruct text as [|c text]; [by vm_compute in Hlex; subst|].
  simpl nonempty. cbv iota.
  unfold Interpreter_render, bind. rewrite Hlex, Hrun. reflexivity.
Qed.

(** ** Resolution of placeholders *)


(** Rendering a template that is one placeholder. *)
Lemma render_single_placeholder (text node_raw name : str)
    (args : list (list Node)) (ctx : Ctx) (s : str)
    (st : RenderResult Embed) :
  lex text = [PlaceholderNode node_raw name args] →
  eval (PlaceholderNode node_raw name args) ctx 0 empty_result = (Ok s, st) →
  engine_render text ctx = Ok (with_content s st).
Proof.
  intros Hlex Hev.
  apply InterpolationEngine_render_lex with (1 := Hlex); [done|].
  rewrite render_nodes_eval with (1 := Hev). reflexivity.
Qed.

(** C4: a placeholder whose name is in neither namespace evaluates to its
    raw text, at every depth and in every state, and so
    [render("{not.a.thing}", ctx)] has the content ["{not.a.thing}"]. *)
Theorem unknown_placeholder_passthrough (name : str) :
  variables !! name = None → functions !! name = None →
  (∀ node_raw args ctx depth st,
     eval (PlaceholderNode node_raw name args) ctx depth st
     = (Ok node_raw, st))
  ∧ (∀ text node_raw args ctx,
       lex text = [PlaceholderNode node_raw name args] →
       engine_render text ctx = Ok (mkRenderResult node_raw [] []))
  ∧ (name = "not.a.thing" →
     ∀ ctx, engine_render "{not.a.thing}" ctx
            = Ok (mkRenderResult "{not.a.thing}" [] [])).
Proof.
  intros Hv Hf.
  assert (Hraw : ∀ node_raw args ctx depth st,
    eval (PlaceholderNode node_raw name args) ctx depth st
    = (Ok node_raw, st)).
  { intros. apply _eval_unknown; [|done]. by destruct args. }
  assert (Hone : ∀ text node_raw args ctx,
    lex text = [PlaceholderNode node_raw name args] →
    engine_render text ctx = Ok (mkRenderResult node_raw [] [])).
  { intros text node_raw args ctx Hlex.
    apply (render_single_placeholder _ _ _ _ _ _ _ Hlex (Hraw _ _ _ _ _)). }
  split; [exact Hraw|]. split; [exact Hone|].
  intros -> ctx. apply Hone with (args := []). by vm_compute.
Qed.

(** The evaluated arguments are one string per argument group. *)
Lemma eval_groups_length (ev : Node → M Embed str)
    (groups : list (list Node)) :
  ∀ evaluated_args st vs st',
    eval_groups ev groups evaluated_args st = (Ok vs, st') →
    length vs = length evaluated_args + length groups.
Proof.
  induction groups as [|g gs IH]; intros acc st vs st'; simpl.
  - unfold ret. intros [= <- <-]. lia.
  - unfold bind at 1.
    destruct (eval_group ev g [] st) as [[v|] st1]; [|done].
    intros H. apply IH in H. rewrite length_app in H. simpl in H. lia.
Qed.

(** C5: a placeholder without arguments is resolved as a Variable when its
    name is one, and as a Function called without argument strings only
    when it is not; a placeholder with arguments is resolved as a Function
    or not at all, whatever the Variable namespace holds.  With [greet]
    in both namespaces, [{greet}] calls the Variable and [{greet:x}] the
    Function. *)
Theorem name_resolution_precedence (node_raw name : str)
    (args : list (list Node)) (ctx : Ctx) (depth : nat) (st : state) :
  depth ≤ MAX_NESTING →
  (∀ hv, args = [] → variables !! name = Some hv →
     eval (PlaceholderNode node_raw name args) ctx depth st
     = (Ok (output_of (hv ctx)), st))
  ∧ (∀ hf, args = [] → variables !! name = None →
       functions !! name = Some hf →
       eval (PlaceholderNode node_raw name args) ctx depth st
       = (Ok (output_of (hf ctx st []).1), (hf ctx st []).2))
  ∧ (∀ hf, args ≠ [] → functions !! name = Some hf →
       ∃ evaluated_args st1,
         eval_groups (λ arg_node, eval arg_node ctx (depth + 1)) args [] st
         = (Ok evaluated_args, st1)
         ∧ length evaluated_args = length args
         ∧ eval (PlaceholderNode node_raw name args) ctx depth st
           = (Ok (output_of (hf ctx st1 evaluated_args).1),
              (hf ctx st1 evaluated_args).2))
  ∧ (args ≠ [] → functions !! name = None →
     eval (PlaceholderNode node_raw name args) ctx depth st
     = (Ok node_raw, st))
  ∧ (∀ hv hf, variables !! ("greet" : str) = Some hv →
       functions !! ("greet" : str) = Some hf →
       engine_render "{greet}" ctx
       = Ok (mkRenderResult (output_of (hv ctx)) [] [])
       ∧ engine_render "{greet:x}" ctx
         = Ok (with_content (output_of (hf ctx empty_result ["x" : str]).1)
                 (hf ctx empty_result ["x" : str]).2)).
Proof.
  intros Hd. split; [|split; [|split; [|split; [|intros hv hf Hgv Hgf; split]]]].
  - intros hv -> Hv. by apply _eval_variable.
  - intros hf -> Hv Hf.
    destruct (_eval_function node_raw name [] ctx depth hf st)
      as (vs & st1 & Hargs & ->); try done.
    simpl in Hargs. unfold ret in Hargs. by injection Hargs as <- <-.
  - intros hf Hargs Hf.
    destruct (_eval_function node_raw name args ctx depth hf st)
      as (vs & st1 & Hvs & Hev); try done.
    { by destruct args. }
    exists vs, st1. split; [done|]. split; [|done].
    by rewrite (eval_groups_length _ _ _ _ _ _ Hvs).
  - intros Hargs Hf. apply _eval_unknown; [|done]. by destruct args.
  - rewrite (render_single_placeholder "{greet}" "{greet}" "greet" [] ctx
               (output_of (hv ctx)) empty_result);
      [reflexivity | by vm_compute |].
    by apply _eval_variable; [unfold MAX_NESTING; lia|].
  - destruct (_eval_function "{greet:x}" "greet" [[TextNode "x"]] ctx 0 hf
                empty_result) as (vs & st1 & Hvs & Hev); try done.
    { unfold MAX_NESTING; lia. }
    vm_compute in Hvs. injection Hvs as <- <-.
    apply render_single_placeholder with (2 := Hev). by vm_compute.
Qed.

Lemma _eval_text (value : str) (ctx : Ctx) (depth : nat) (st : state) :
  eval (TextNode value) ctx depth st = (Ok value, st).
Proof. rewrite _eval_unfold. by destruct (MAX_NESTING <? depth). Qed.

(** C10: what a handler returns is the output of its placeholder as it is:
    it is appended to the content, or to the argument string it occurs in,
    and is never lexed or evaluated again, whatever it contains. *)
Theorem handler_result_is_inert (s : str) (ctx : Ctx) :
  (∀ node_raw name hv depth st, depth ≤ MAX_NESTING →
     variables !! name = Some hv → hv ctx = Return (Some s) →
     eval (PlaceholderNode node_raw name []) ctx depth st = (Ok s, st))
  ∧ (∀ node_raw name args hf depth st, depth ≤ MAX_NESTING →
       (if args is [] then variables !! name else None) = None →
       functions !! name = Some hf →
       ∃ evaluated_args st1,
         eval_groups (λ arg_node, eval arg_node ctx (depth + 1)) args [] st
         = (Ok evaluated_args, st1)
         ∧ ((hf ctx st1 evaluated_args).1 = Return (Some s) →
            eval (PlaceholderNode node_raw name args) ctx depth st
            = (Ok s, (hf ctx st1 evaluated_args).2)))
  ∧ (∀ hv, variables !! ("v" : str) = Some hv → hv ctx = Return (Some s) →
       engine_render "a{v}b" ctx
       = Ok (mkRenderResult ("a" ++ s ++ "b") [] [])
       ∧ ∀ hf, functions !! ("f" : str) = Some hf →
           engine_render "{f:<{v}>}" ctx
           = Ok (with_content
                   (output_of (hf ctx empty_result ["<" ++ s ++ ">"]).1)
                   (hf ctx empty_result ["<" ++ s ++ ">"]).2)).
Proof.
  assert (H0 : 0 ≤ MAX_NESTING) by (unfold MAX_NESTING; lia).
  assert (H1 : 1 ≤ MAX_NESTING) by (unfold MAX_NESTING; lia).
  split; [|split].
  - intros node_raw name hv depth st Hd Hv Hs.
    rewrite _eval_variable with (handler := hv) by done. by rewrite Hs.
  - intros node_raw name args hf depth st Hd Hv Hf.
    destruct (_eval_function node_raw name args ctx depth hf st)
      as (vs & st1 & Hvs & Hev); try done.
    exists vs, st1. split; [done|]. intros Hs. by rewrite Hev, Hs.
  - intros hv Hv Hs. split.
    + apply InterpolationEngine_render_lex
        with (nodes := [TextNode "a"; PlaceholderNode "{v}" "v" [];
                        TextNode "b"]); [by vm_compute | done |].
      rewrite render_nodes_eval with (1 := _eval_text _ _ _ _).
      rewrite render_nodes_eval
        with (1 := _eval_variable "{v}" "v" ctx 0 hv _ H0 Hv).
      rewrite render_nodes_eval with (1 := _eval_text _ _ _ _).
      rewrite Hs. reflexivity.
    + intros hf Hf.
      destruct (_eval_function "{f:<{v}>}" "f"
                  [[TextNode "<"; PlaceholderNode "{v}" "v" []; TextNode ">"]]
                  ctx 0 hf empty_result) as (vs & st1 & Hvs & Hev);
        try done.
      cbn [eval_groups eval_group] in Hvs. unfold bind in Hvs.
      rewrite _eval_text in Hvs.
      rewrite (_eval_variable "{v}" "v" ctx (0 + 1) hv _ H1 Hv) in Hvs.
      rewrite _eval_text in Hvs. rewrite Hs in Hvs.
      unfold ret in Hvs. simpl in Hvs. injection Hvs as <- <-.
      apply render_single_placeholder with (2 := Hev). by vm_compute.
Qed.

(** *** The depth guard *)





End interpreter_facts.

Lemma unknown_placeholder_passthrough_witness :
  InterpolationEngine_render (Ctx := unit) (Embed := unit) ∅ ∅
    "{not.a.thing}" tt
  = Ok (mkRenderResult "{not.a.thing}" [] []).
Proof.
  refine (proj2 (proj2 (unknown_placeholder_passthrough ∅ ∅ "not.a.thing"
            _ _)) eq_refl tt); reflexivity.
Defined.

Lemma name_resolution_precedence_witness :
  InterpolationEngine_render greet_variables greet_functions "{greet}" tt
  = Ok (mkRenderResult "hello" [] [])
  ∧ InterpolationEngine_render greet_variables greet_functions "{greet:x}" tt
    = Ok (mkRenderResult "x" [] []).
Proof.
  assert (Hd : 0 ≤ MAX_NESTING) by (unfold MAX_NESTING; lia).
  exact (proj2 (proj2 (proj2 (proj2
           (name_resolution_precedence greet_variables greet_functions
              [] [] [] tt 0 empty_result Hd))))
         _ _ eq_refl eq_refl).
Defined.

Lemma handler_result_is_inert_witness :
  InterpolationEngine_render inert_variables greet_functions "a{v}b" tt
  = Ok (mkRenderResult "a{name}b" [] []).
Proof.
  exact (proj1 (proj2 (proj2
           (handler_result_is_inert inert_variables greet_functions
              "{name}" tt)) _ eq_refl eq_refl)).
Defined.






(** * The lexer, continued *)

(** ** Splitting the arguments *)

Lemma _split_arguments_loop_spec (rest : str) :
  ∀ segments buffer depth escaped,
    _split_arguments_loop rest segments buffer depth escaped
    = segments
      ++ List.filter nonempty
           (pieces rest (separator_marks ";" rest depth escaped) buffer).
Proof.
  induction rest as [|char rest IH]; intros segments buffer depth escaped.
  - simpl. unfold push_segment. destruct (nonempty buffer); [done|].
    by rewrite app_nil_r.
  - cbn [_split_arguments_loop separator_marks pieces].
    change ESCAPE_CHAR with "\"%char.
    destruct escaped, (Ascii.eqb char "\") eqn:E1; cbn [andb negb pieces];
      try apply IH.
    destruct (Ascii.eqb_spec char "{") as [->|E2]; [apply IH|].
    destruct (Ascii.eqb_spec char "}") as [->|E3]; [apply IH|].
    destruct (Ascii.eqb char ";" && (depth =? 0)%Z); rewrite IH; [|done].
    cbn [List.filter]. unfold push_segment.
    destruct (nonempty buffer); [|done]. by rewrite <- app_assoc.
Qed.

(** [_split_arguments] cuts at the unescaped [;] of depth 0, nowhere else,
    and leaves out the empty pieces. *)
Lemma _split_arguments_spec (args_str : str) :
  _split_arguments args_str
  = List.filter nonempty (pieces args_str (separators args_str) []).
Proof.
  unfold _split_arguments, separators.
  destruct args_str as [|c s]; [done|].
  by rewrite _split_arguments_loop_spec.
Qed.

Lemma _split_arguments_nonempty (args_str : str) :
  Forall (λ seg, seg ≠ []) (_split_arguments args_str).
Proof.
  rewrite _split_arguments_spec. apply List.Forall_forall.
  intros seg [_ Hseg]%List.filter_In. by destruct seg.
Qed.

Lemma separator_marks_length (sep : ascii) (s : str) :
  ∀ depth escaped, length (separator_marks sep s depth escaped) = length s.
Proof.
  induction s as [|c s IH]; intros depth escaped; simpl; [done|].
  repeat case_match; simpl; by rewrite IH.
Qed.

Lemma separator_marks_app (sep : ascii) (s t : str) :
  ∀ depth escaped,
    take (length s) (separator_marks sep (s ++ t) depth escaped)
    = separator_marks sep s depth escaped.
Proof.
  induction s as [|c s IH]; intros depth escaped; simpl; [done|].
  repeat case_match; simpl; by rewrite IH.
Qed.

Lemma pieces_snoc_mark (s : str) :
  ∀ marks cur c,
    length marks = length s →
    pieces (s ++ [c]) (marks ++ [true]) cur = pieces s marks cur ++ [[]].
Proof.
  induction s as [|c' s IH]; intros [|m marks] cur c Hlen; try done.
  simpl in *. destruct m; rewrite IH by lia; done.
Qed.

(** A [;] that ends the arguments portion and is a separator adds no
    argument. *)
Lemma _split_arguments_trailing (s : str) :
  last (separators (s ++ ";")) = Some true →
  _split_arguments (s ++ ";") = _split_arguments s.
Proof.
  change (list_ascii_of_string ";") with [";"%char].
  intros Hlast. rewrite !_split_arguments_spec.
  pose proof (separator_marks_length ";" (s ++ [";"%char]) 0 false) as Hlen.
  pose proof (separator_marks_app ";" s [";"%char] 0 false) as Htake.
  fold (separators (s ++ [";"%char])) in Hlen, Htake.
  fold (separators s) in Htake.
  rewrite length_app in Hlen. simpl in Hlen.
  apply last_Some in Hlast as [ms Hms]. rewrite Hms in *.
  rewrite length_app in Hlen. simpl in Hlen.
  rewrite take_app_length' in Htake by lia. subst ms.
  rewrite pieces_snoc_mark by lia.
  rewrite List.filter_app. simpl. by rewrite app_nil_r.
Qed.

(** C8: splitting the arguments portion yields no empty string: the pieces
    between the separators that are empty are left out, a separator that
    ends the portion adds nothing, and so [{f:;a}] and [{f:a;}] call [f]
    with the one argument ["a"]. *)
Theorem empty_segments_are_dropped :
  (∀ args_str, Forall (λ seg, seg ≠ []) (_split_arguments args_str))
  ∧ (∀ args_str,
       _split_arguments args_str
       = List.filter nonempty (pieces args_str (separators args_str) []))
  ∧ (∀ s, last (separators (s ++ ";")) = Some true →
       _split_arguments (s ++ ";") = _split_arguments s)
  ∧ _split_arguments ";a" = ["a" : str]
  ∧ _split_arguments "a;;b;" = ["a" : str; "b" : str]
  ∧ lex "{f:;a}" = [PlaceholderNode "{f:;a}" "f" [[TextNode "a"]]]
  ∧ (∀ (Ctx Embed : Type) (variables : gmap str (VariableHandler Ctx))
       (functions : gmap str (FunctionHandler Ctx Embed)) hf ctx,
       functions !! ("f" : str) = Some hf →
       InterpolationEngine_render variables functions "{f:;a}" ctx
       = Ok (with_content (output_of (hf ctx empty_result ["a" : str]).1)
               (hf ctx empty_result ["a" : str]).2)
       ∧ InterpolationEngine_render variables functions "{f:a;}" ctx
         = Ok (with_content (output_of (hf ctx empty_result ["a" : str]).1)
                 (hf ctx empty_result ["a" : str]).2)).
Proof.
  split; [apply _split_arguments_nonempty|].
  split; [apply _split_arguments_spec|].
  split; [apply _split_arguments_trailing|].
  do 3 (split; [by vm_compute|]).
  intros Ctx Embed variables functions hf ctx Hf.
  assert (H0 : 0 ≤ MAX_NESTING) by (unfold MAX_NESTING; lia).
  split.
  - destruct (_eval_function variables functions "{f:;a}" "f"
                [[TextNode "a"]] ctx 0 hf empty_result)
      as (vs & st1 & Hvs & Hev); try done.
    vm_compute in Hvs. injection Hvs as <- <-.
    apply render_single_placeholder with (2 := Hev). by vm_compute.
  - destruct (_eval_function variables functions "{f:a;}" "f"
                [[TextNode "a"]] ctx 0 hf empty_result)
      as (vs & st1 & Hvs & Hev); try done.
    vm_compute in Hvs. injection Hvs as <- <-.
    apply render_single_placeholder with (2 := Hev). by vm_compute.
Qed.

Lemma empty_segments_are_dropped_witness :
  InterpolationEngine_render ∅ example_functions "{f:;a}" tt
  = Ok (mkRenderResult "[a]" [] []).
Proof.
  exact (proj1 (proj2 (proj2 (proj2 (proj2 (proj2 (proj2
           empty_segments_are_dropped)))))
         unit unit ∅ example_functions _ tt eq_refl)).
Defined.



Lemma mapM_Some_map {A B} (f : A → B) (l : list A) :
  mapM (λ x, Some (f x)) l = Some (map f l).
Proof. apply mapM_Some. induction l; constructor; done. Qed.




(** ** Escapes and literal text *)

Section lex_loop_steps.
Variable lex_rec : str → option (list Node).

Lemma lex_loop_escape (fuel : nat) (c : ascii) (rest buffer : str)
    (nodes : list Node) :
  is_special c = true →
  lex_loop lex_rec (S fuel) ("\"%char :: c :: rest) buffer nodes
  = lex_loop lex_rec fuel rest (buffer ++ [c]) nodes.
Proof. intros Hc. simpl. by rewrite Hc. Qed.

Lemma lex_loop_backslash (fuel : nat) (c : ascii) (rest buffer : str)
    (nodes : list Node) :
  is_special c = false →
  lex_loop lex_rec (S fuel) ("\"%char :: c :: rest) buffer nodes
  = lex_loop lex_rec fuel (c :: rest) (buffer ++ ["\"%char]) nodes.
Proof. intros Hc. simpl. by rewrite Hc. Qed.

Lemma lex_loop_backslash_end (fuel : nat) (buffer : str) (nodes : list Node) :
  lex_loop lex_rec (S fuel) ["\"%char] buffer nodes
  = Some (push_text nodes (buffer ++ ["\"%char])).
Proof. by destruct fuel. Qed.

Lemma lex_loop_plain (pre : str) :
  Forall plain pre →
  ∀ fuel rest buffer nodes,
    lex_loop lex_rec (length pre + fuel) (pre ++ rest) buffer nodes
    = lex_loop lex_rec fuel rest (buffer ++ pre) nodes.
Proof.
  induction 1 as [|c pre [Hc1 Hc2] _ IH]; intros fuel rest buffer nodes.
  - by rewrite app_nil_r.
  - cbn [length Nat.add app lex_loop].
    change ESCAPE_CHAR with "\"%char.
    destruct (Ascii.eqb_spec c "\"); [done|].
    destruct (Ascii.eqb_spec c "{"); [done|].
    rewrite IH. by rewrite <- app_assoc.
Qed.

Lemma lex_loop_plain_end (pre : str) (fuel : nat) (buffer : str)
    (nodes : list Node) :
  Forall plain pre →
  lex_loop lex_rec (length pre + fuel) pre buffer nodes
  = Some (push_text nodes (buffer ++ pre)).
Proof.
  intros Hpre. rewrite <- (app_nil_r pre) at 2.
  rewrite lex_loop_plain by done. by destruct fuel.
Qed.
End lex_loop_steps.

Lemma push_text_nonempty (buffer : str) :
  buffer ≠ [] → push_text [] buffer = [TextNode buffer].
Proof. by destruct buffer. Qed.

(** Rendering a template that is lexed to one text node. *)
Lemma render_single_text {Ctx Embed : Type}
    (variables : gmap str (VariableHandler Ctx))
    (functions : gmap str (FunctionHandler Ctx Embed))
    (text value : str) (ctx : Ctx) :
  lex text = [TextNode value] →
  InterpolationEngine_render variables functions text ctx
  = Ok (mkRenderResult value [] []).
Proof.
  intros Hlex.
  apply InterpolationEngine_render_lex with (1 := Hlex); [done|].
  by rewrite render_nodes_eval with (1 := _eval_text _ _ _ _ _ _).
Qed.

(** C6: in the loop of [lex] a backslash before one of [{ } \ ; :] is
    dropped and the character after it is added to the text; before any
    other character, and at the end of the input, the backslash is added to
    the text.  So [render("\{literal\}", ctx)] has the content
    ["{literal}"]. *)
Theorem escape_handling :
  (∀ lex_rec fuel c rest buffer nodes,
     is_special c = true →
     lex_loop lex_rec (S fuel) ("\"%char :: c :: rest) buffer nodes
     = lex_loop lex_rec fuel rest (buffer ++ [c]) nodes)
  ∧ (∀ lex_rec fuel c rest buffer nodes,
       is_special c = false →
       lex_loop lex_rec (S fuel) ("\"%char :: c :: rest) buffer nodes
       = lex_loop lex_rec fuel (c :: rest) (buffer ++ ["\"%char]) nodes)
  ∧ (∀ lex_rec fuel buffer nodes,
       lex_loop lex_rec (S fuel) ["\"%char] buffer nodes
       = Some (push_text nodes (buffer ++ ["\"%char])))
  ∧ (∀ c, is_special c = true ↔
          c ∈ ["{"; "}"; "\"; ";"; ":"]%char)
  ∧ (∀ pre c post, Forall plain pre → Forall plain post →
       is_special c = true →
       lex (pre ++ "\"%char :: c :: post) = [TextNode (pre ++ c :: post)])
  ∧ (∀ pre c post, Forall plain pre → Forall plain post →
       is_special c = false →
       lex (pre ++ "\"%char :: c :: post)
       = [TextNode (pre ++ "\"%char :: c :: post)])
  ∧ (∀ pre, Forall plain pre →
       lex (pre ++ ["\"%char]) = [TextNode (pre ++ ["\"%char])])
  ∧ lex "\{literal\}" = [TextNode "{literal}"]
  ∧ (∀ (Ctx Embed : Type) (variables : gmap str (VariableHandler Ctx))
       (functions : gmap str (FunctionHandler Ctx Embed)) ctx,
       InterpolationEngine_render variables functions "\{literal\}" ctx
       = Ok (mkRenderResult "{literal}" [] [])).
Proof.
  split; [apply lex_loop_escape|].
  split; [apply lex_loop_backslash|].
  split; [apply lex_loop_backslash_end|].
  split.
  { intros c. unfold is_special. rewrite !orb_true_iff, !Ascii.eqb_eq.
    rewrite !elem_of_cons, elem_of_nil. tauto. }
  split; [|split; [|split; [|split]]].
  - intros pre c post Hpre Hpost Hc.
    apply (lex_loop_lex (length pre + S (length post + 0))).
    rewrite lex_loop_plain, lex_loop_escape by done.
    rewrite lex_loop_plain_end by done.
    rewrite <- !app_assoc. simpl. by rewrite push_text_nonempty by (by destruct pre).
  - intros pre c post Hpre Hpost Hc.
    assert (Hplain : plain c).
    { split; intros ->; done. }
    apply (lex_loop_lex (length pre + S (length (c :: post) + 0))).
    rewrite lex_loop_plain, lex_loop_backslash by done.
    rewrite lex_loop_plain_end by (by constructor).
    rewrite <- !app_assoc. simpl. by rewrite push_text_nonempty by (by destruct pre).
  - intros pre Hpre.
    apply (lex_loop_lex (length pre + 1)).
    rewrite lex_loop_plain, lex_loop_backslash_end by done.
    simpl. by rewrite push_text_nonempty by (by destruct pre).
  - by vm_compute.
  - intros. apply render_single_text. by vm_compute.
Qed.

Lemma escape_handling_witness :
  lex "a\:b" = [TextNode "a:b"] ∧ lex "a\nb" = [TextNode "a\nb"].
Proof.
  split.
  - refine (proj1 (proj2 (proj2 (proj2 (proj2 escape_handling))))
             "a" ":"%char "b" _ _ eq_refl);
      repeat constructor; discriminate.
  - refine (proj1 (proj2 (proj2 (proj2 (proj2 (proj2 escape_handling)))))
             "a" "n"%char "b" _ _ eq_refl);
      repeat constructor; discriminate.
Defined.

(** ** Spans that are not placeholders *)

Lemma _parse_placeholder_loop_unclosed (rest : str) :
  ∀ i depth escaped,
    (∀ k, 0 < k ≤ length rest →
          (scan_braces (take k rest) depth escaped).1 ≠ 0%Z) →
    _parse_placeholder_loop rest i depth escaped = None.
Proof.
  induction rest as [|char rest IH]; intros i depth escaped Hopen; [done|].
  assert (Htail : ∀ d e,
    (∀ k, scan_braces (take (S k) (char :: rest)) depth escaped
          = scan_braces (take k rest) d e) →
    ∀ k, 0 < k ≤ length rest → (scan_braces (take k rest) d e).1 ≠ 0%Z).
  { intros d e Hstep k Hk. rewrite <- Hstep. apply Hopen. simpl. lia. }
  pose proof (Hopen 1 ltac:(simpl; lia)) as H1.
  cbn [_parse_placeholder_loop]. change ESCAPE_CHAR with "\"%char.
  cbn [take scan_braces] in Htail, H1.
  destruct escaped; [rewrite andb_false_r; by apply IH, Htail|].
  rewrite andb_true_r.
  destruct (Ascii.eqb char "\"); [by apply IH, Htail|].
  destruct (Ascii.eqb char "{"); [by apply IH, Htail|].
  destruct (Ascii.eqb char "}"); [|by apply IH, Htail].
  destruct (Z.eqb_spec (depth - 1) 0); [|by apply IH, Htail].
  by rewrite take_0 in H1.
Qed.

Lemma _parse_placeholder_loop_closed (rest : str) :
  ∀ i depth escaped,
    (1 ≤ depth)%Z →
    _parse_placeholder_loop rest i depth escaped = None →
    ∀ k, k ≤ length rest →
         (1 ≤ (scan_braces (take k rest) depth escaped).1)%Z.
Proof.
  induction rest as [|char rest IH]; intros i depth escaped Hd Hnone k Hk.
  { by rewrite take_nil. }
  destruct k as [|k]; [done|]. simpl in Hk.
  cbn [_parse_placeholder_loop] in Hnone.
  change ESCAPE_CHAR with "\"%char in Hnone.
  cbn [take scan_braces].
  destruct escaped.
  { rewrite andb_false_r in Hnone. eapply IH; [done..|lia]. }
  rewrite andb_true_r in Hnone.
  destruct (Ascii.eqb char "\"); [eapply IH; [done..|lia]|].
  destruct (Ascii.eqb char "{"); [eapply IH; [lia|done|lia]|].
  destruct (Ascii.eqb char "}"); [|eapply IH; [done..|lia]].
  destruct (Z.eqb_spec (depth - 1) 0); [done|].
  eapply IH; [lia|done|lia].
Qed.

(** The loop of [_parse_placeholder] runs to the end of the text exactly
    when the placeholder that its first character opens is unclosed. *)
Lemma _parse_placeholder_loop_None (r : str) :
  _parse_placeholder_loop ("{"%char :: r) 0 0 false = None
  ↔ unclosed ("{"%char :: r).
Proof.
  split.
  - intros Hnone k Hk. unfold brace_depth.
    destruct k as [|k]; [lia|]. simpl in *.
    pose proof (_parse_placeholder_loop_closed r 1 1 false ltac:(lia) Hnone k
                  ltac:(lia)).
    change (0 + 1)%Z with 1%Z. lia.
  - intros Hopen. by apply _parse_placeholder_loop_unclosed.
Qed.

Lemma isspace_plain (c : ascii) :
  isspace c = true → c ≠ "\"%char ∧ c ≠ "{"%char ∧ c ≠ "}"%char.
Proof. intros H. repeat split; intros ->; discriminate. Qed.

Lemma strip_blank (s : str) : blank s → strip s = [].
Proof.
  intros H. unfold strip. replace (lstrip s) with (@nil ascii); [done|].
  induction H as [|c s Hc _ IH]; simpl; [done|]. by rewrite Hc.
Qed.

Lemma _parse_placeholder_loop_blank (ws : str) :
  blank ws →
  ∀ rest i depth,
    _parse_placeholder_loop (ws ++ rest) i depth false
    = _parse_placeholder_loop rest (i + length ws) depth false.
Proof.
  induction 1 as [|c ws Hc _ IH]; intros rest i depth; simpl.
  { by rewrite Nat.add_0_r. }
  change ESCAPE_CHAR with "\"%char.
  destruct (isspace_plain c Hc) as (H1 & H2 & H3).
  destruct (Ascii.eqb_spec c "\"); [done|].
  destruct (Ascii.eqb_spec c "{"); [done|].
  destruct (Ascii.eqb_spec c "}"); [done|].
  simpl. rewrite IH. f_equal. lia.
Qed.

Section not_placeholders.
Variable lex_rec : str → option (list Node).

Lemma _parse_placeholder_unclosed (r : str) :
  unclosed ("{"%char :: r) →
  _parse_placeholder lex_rec ("{"%char :: r)
  = Some (TextNode ("{"%char :: r), length ("{"%char :: r)).
Proof.
  intros Hopen. unfold _parse_placeholder.
  by rewrite (proj2 (_parse_placeholder_loop_None r) Hopen).
Qed.

Lemma _parse_placeholder_blank (ws rest : str) :
  blank ws →
  _parse_placeholder lex_rec ("{" ++ ws ++ "}" ++ rest)
  = Some (TextNode ("{" ++ ws ++ "}"), length ws + 2).
Proof.
  intros Hws. unfold _parse_placeholder.
  change ("{" ++ ws ++ "}" ++ rest) with ("{"%char :: ws ++ "}"%char :: rest).
  cbn [_parse_placeholder_loop]. change ESCAPE_CHAR with "\"%char.
  cbn [Ascii.eqb Bool.eqb andb negb]. 
  rewrite _parse_placeholder_loop_blank by done.
  cbn [_parse_placeholder_loop]. change ESCAPE_CHAR with "\"%char.
  cbn [Ascii.eqb Bool.eqb andb negb].
  change (0 + 1 - 1 =? 0)%Z with true. cbv iota.
  assert (Hraw : take (1 + length ws + 1) ("{"%char :: ws ++ "}"%char :: rest)
                 = "{"%char :: ws ++ ["}"%char]).
  { simpl. f_equal. rewrite take_app_ge by lia.
    replace (length ws + 1 - length ws) with 1 by lia. done. }
  rewrite Hraw.
  assert (Hinner : slice 1 (length ("{"%char :: ws ++ ["}"%char]) - 1)
                     ("{"%char :: ws ++ ["}"%char]) = ws).
  { unfold slice. simpl. rewrite length_app. simpl.
    replace (length ws + 1 - 0 - 1) with (length ws) by lia.
    rewrite drop_0. by rewrite take_app_length. }
  rewrite Hinner, strip_blank by done. simpl.
  do 3 f_equal. lia.
Qed.

Lemma lex_loop_unclosed (fuel : nat) (r buffer : str) (nodes : list Node) :
  unclosed ("{"%char :: r) →
  lex_loop lex_rec (S fuel) ("{"%char :: r) buffer nodes
  = Some (push_text nodes buffer ++ [TextNode ("{"%char :: r)]).
Proof.
  intros Hopen. cbn [lex_loop]. change ESCAPE_CHAR with "\"%char.
  cbn [Ascii.eqb Bool.eqb]. cbv iota.
  rewrite _parse_placeholder_unclosed by done. simpl.
  rewrite drop_all. by destruct fuel.
Qed.

Lemma lex_loop_blank (fuel : nat) (ws rest buffer : str) (nodes : list Node) :
  blank ws →
  lex_loop lex_rec (S fuel) ("{" ++ ws ++ "}" ++ rest) buffer nodes
  = lex_loop lex_rec fuel rest []
      (push_text nodes buffer ++ [TextNode ("{" ++ ws ++ "}")]).
Proof.
  intros Hws.
  pose proof (_parse_placeholder_blank ws rest Hws) as Hp.
  change ("{" ++ ws ++ "}" ++ rest) with ("{"%char :: ws ++ "}"%char :: rest)
    in *.
  cbn [lex_loop]. change ESCAPE_CHAR with "\"%char.
  cbn [Ascii.eqb Bool.eqb]. cbv iota.
  rewrite Hp. simpl. 
  replace (length ws + 2) with (S (length ws + 1)) by lia. simpl.
  rewrite drop_app_ge by lia.
  replace (length ws + 1 - length ws) with 1 by lia. done.
Qed.
End not_placeholders.

Lemma with_content_with_content {Embed : Type} (c c' : str)
    (st : RenderResult Embed) :
  with_content c (with_content c' st) = with_content c st.
Proof. reflexivity. Qed.

(** Text nodes are rendered to their values, whatever the handlers are. *)
Lemma render_nodes_text {Ctx Embed : Type}
    (variables : gmap str (VariableHandler Ctx))
    (functions : gmap str (FunctionHandler Ctx Embed))
    (values : list str) (ctx : Ctx) :
  ∀ st,
    render_nodes (_eval variables functions) (map TextNode values) ctx st
    = (Ok tt, with_content (content st ++ concat values) st).
Proof.
  induction values as [|v values IH]; intros st.
  - simpl. unfold ret. rewrite app_nil_r. by destruct st.
  - cbn [map]. rewrite render_nodes_eval with (1 := _eval_text _ _ _ _ _ _).
    rewrite IH. simpl. by rewrite <- app_assoc.
Qed.

Lemma render_text {Ctx Embed : Type}
    (variables : gmap str (VariableHandler Ctx))
    (functions : gmap str (FunctionHandler Ctx Embed))
    (text : str) (values : list str) (ctx : Ctx) :
  lex text = map TextNode values → values ≠ [] →
  InterpolationEngine_render variables functions text ctx
  = Ok (mkRenderResult (concat values) [] []).
Proof.
  intros Hlex Hne.
  apply InterpolationEngine_render_lex with (1 := Hlex); [by destruct values|].
  by rewrite render_nodes_text.
Qed.

Lemma push_text_values (buffer : str) :
  push_text [] buffer = map TextNode (if nonempty buffer then [buffer] else []).
Proof. by destruct buffer. Qed.

Lemma concat_nonempty_singleton (buffer : str) :
  concat (if nonempty buffer then [buffer] else []) = buffer.
Proof. destruct buffer; simpl; [done|]. by rewrite app_nil_r. Qed.

Lemma lex_unclosed (pre r : str) :
  Forall plain pre → unclosed ("{"%char :: r) →
  lex (pre ++ "{"%char :: r) = push_text [] pre ++ [TextNode ("{"%char :: r)].
Proof.
  intros Hpre Hopen. apply (lex_loop_lex (length pre + 1)).
  by rewrite lex_loop_plain, lex_loop_unclosed.
Qed.

Lemma lex_blank (pre ws post : str) :
  Forall plain pre → blank ws → Forall plain post →
  lex (pre ++ "{" ++ ws ++ "}" ++ post)
  = push_text [] pre ++ [TextNode ("{" ++ ws ++ "}")] ++ push_text [] post.
Proof.
  intros Hpre Hws Hpost.
  apply (lex_loop_lex (length pre + S (length post + 0))).
  rewrite lex_loop_plain, lex_loop_blank, lex_loop_plain_end by done.
  f_equal. simpl. destruct post; simpl; [done|].
  unfold push_text. simpl. by rewrite <- app_assoc.
Qed.

(** C3: a brace span that is not a placeholder is literal text.  When the
    brace depth never returns to 0, the text from the opening brace to the
    end is one text node; when the braces close around nothing but
    whitespace, the span with its braces is a text node.  The lexer of
    [render] makes ["a{b"] of ["a{b"] and ["x{}y"] of ["x{}y"]. *)
Theorem malformed_braces_are_literal_text :
  (∀ r, _parse_placeholder_loop ("{"%char :: r) 0 0 false = None
        ↔ unclosed ("{"%char :: r))
  ∧ (∀ lex_rec r, unclosed ("{"%char :: r) →
       _parse_placeholder lex_rec ("{"%char :: r)
       = Some (TextNode ("{"%char :: r), length ("{"%char :: r)))
  ∧ (∀ pre r, Forall plain pre → unclosed ("{"%char :: r) →
       lex (pre ++ "{"%char :: r)
       = push_text [] pre ++ [TextNode ("{"%char :: r)])
  ∧ (∀ lex_rec ws rest, blank ws →
       _parse_placeholder lex_rec ("{" ++ ws ++ "}" ++ rest)
       = Some (TextNode ("{" ++ ws ++ "}"), length ws + 2))
  ∧ (∀ pre ws post, Forall plain pre → blank ws → Forall plain post →
       lex (pre ++ "{" ++ ws ++ "}" ++ post)
       = push_text [] pre ++ [TextNode ("{" ++ ws ++ "}")]
         ++ push_text [] post)
  ∧ (∀ (Ctx Embed : Type) (variables : gmap str (VariableHandler Ctx))
       (functions : gmap str (FunctionHandler Ctx Embed)) ctx,
       (∀ pre r, Forall plain pre → unclosed ("{"%char :: r) →
          InterpolationEngine_render variables functions
            (pre ++ "{"%char :: r) ctx
          = Ok (mkRenderResult (pre ++ "{"%char :: r) [] []))
       ∧ (∀ pre ws post, Forall plain pre → blank ws → Forall plain post →
            InterpolationEngine_render variables functions
              (pre ++ "{" ++ ws ++ "}" ++ post) ctx
            = Ok (mkRenderResult (pre ++ "{" ++ ws ++ "}" ++ post) [] []))
       ∧ InterpolationEngine_render variables functions "a{b" ctx
         = Ok (mkRenderResult "a{b" [] [])
       ∧ InterpolationEngine_render variables functions "x{}y" ctx
         = Ok (mkRenderResult "x{}y" [] [])).
Proof.
  split; [apply _parse_placeholder_loop_None|].
  split; [apply _parse_placeholder_unclosed|].
  split; [apply lex_unclosed|].
  split; [apply _parse_placeholder_blank|].
  split; [apply lex_blank|].
  intros Ctx Embed variables functions ctx.
  split; [|split; [|split]].
  - intros pre r Hpre Hopen.
    rewrite (render_text variables functions _
               ((if nonempty pre then [pre] else []) ++ ["{"%char :: r])).
    + by rewrite concat_app, concat_nonempty_singleton; simpl;
        rewrite app_nil_r.
    + by rewrite lex_unclosed, push_text_values, map_app.
    + by destruct (nonempty pre).
  - intros pre ws post Hpre Hws Hpost.
    rewrite (render_text variables functions _
               ((if nonempty pre then [pre] else []) ++ ["{" ++ ws ++ "}"]
                ++ (if nonempty post then [post] else []))).
    + rewrite !concat_app, !concat_nonempty_singleton. simpl.
      by rewrite app_nil_r, <- !app_assoc.
    + by rewrite lex_blank, !push_text_values, !map_app.
    + by destruct (nonempty pre).
  - by apply (render_text variables functions "a{b" ["a" : str; "{b" : str]).
  - by apply (render_text variables functions "x{}y"
                ["x" : str; "{}" : str; "y" : str]).
Qed.

Lemma malformed_braces_are_literal_text_witness :
  lex "a{b" = [TextNode "a"; TextNode "{b"]
  ∧ lex "x{ }y" = [TextNode "x"; TextNode "{ }"; TextNode "y"].
Proof.
  split.
  - refine (proj1 (proj2 (proj2 malformed_braces_are_literal_text))
              "a" "b" _ _).
    + repeat constructor; discriminate.
    + intros [|[|[|k]]] Hk; simpl in Hk; try lia; vm_compute; discriminate.
  - refine (proj1 (proj2 (proj2 (proj2 (proj2
              malformed_braces_are_literal_text))))
              "x" " " "y" _ _ _);
      repeat constructor; discriminate.
Defined.

(** ** Raw texts *)


Lemma span_of_trans (a b c : str) : span_of a b → span_of b c → span_of a c.
Proof.
  intros (p1 & q1 & ->) (p2 & q2 & ->).
  exists (p2 ++ p1), (q1 ++ q2). by rewrite <- !app_assoc.
Qed.


Lemma span_of_drop (k : nat) (s : str) : span_of (drop k s) s.
Proof. exists (take k s), []. by rewrite app_nil_r, take_drop. Qed.

Lemma span_of_length (s text : str) : span_of s text → length s ≤ length text.
Proof. intros (pre & post & ->). rewrite !length_app. lia. Qed.

Lemma pieces_span (s : str) :
  ∀ marks cur pre,
    Forall (λ piece, span_of piece (pre ++ cur ++ s)) (pieces s marks cur).
Proof.
  induction s as [|c s IH]; intros marks cur pre.
  { destruct marks; simpl; apply Forall_singleton; by exists pre, []. }
  destruct marks as [|[] marks]; simpl.
  - apply Forall_singleton. by exists pre, (c :: s).
  - constructor; [by exists pre, (c :: s)|].
    specialize (IH marks [] (pre ++ cur ++ [c])).
    by rewrite <- !app_assoc in IH.
  - specialize (IH marks (cur ++ [c]) pre). by rewrite <- !app_assoc in IH.
Qed.

(** The segments of an arguments portion are spans of it. *)
Lemma _split_arguments_span (args_str : str) :
  Forall (λ seg, span_of seg args_str) (_split_arguments args_str).
Proof.
  rewrite _split_arguments_spec. apply List.Forall_forall.
  intros seg [Hin _]%List.filter_In.
  pose proof (pieces_span args_str (separators args_str) [] []) as H.
  rewrite List.Forall_forall in H. by apply H.
Qed.

Section raw_texts.
Variable lex_rec : str → option (list Node).

End raw_texts.






Section placeholder_spans.
Variable lex_rec : str → option (list Node).
Variable text : str.

End placeholder_spans.





(** * More on the lexer *)

Lemma push_text_app (nodes : list Node) (buffer : str) :
  push_text nodes buffer = nodes ++ push_text [] buffer.
Proof. unfold push_text. destruct (nonempty buffer); [done|]. by rewrite app_nil_r. Qed.

(** The nodes already made do not influence what the loop of [lex] makes of
    the rest. *)
Lemma lex_loop_nodes (lex_rec : str → option (list Node)) (fuel : nat) :
  ∀ rest buffer nodes,
    lex_loop lex_rec fuel rest buffer nodes
    = (nodes ++.) <$> lex_loop lex_rec fuel rest buffer [].
Proof.
  induction fuel as [|fuel IH]; intros rest buffer nodes;
    destruct rest as [|char rest]; simpl;
    try (by rewrite push_text_app); [done|].
  destruct (if Ascii.eqb char ESCAPE_CHAR then rest else [])
    as [|next_char rest''].
  - destruct (Ascii.eqb char "{"); [|apply IH].
    destruct (_parse_placeholder lex_rec (char :: rest))
      as [[node consumed]|]; [|done].
    simpl. rewrite IH, (IH _ _ (push_text [] buffer ++ [node])).
    rewrite <- option_fmap_compose. apply option_fmap_ext. intros r. simpl.
    by rewrite (push_text_app nodes), <- !app_assoc.
  - destruct (is_special next_char); apply IH.
Qed.

Lemma _parse_placeholder_lex_is_Some (text : str) :
  is_Some (_parse_placeholder (λ s, Some (lex s)) text).
Proof. apply _parse_placeholder_is_Some. eauto. Qed.

(** X1: text without a backslash and without an opening brace is one text
    node, and is rendered to itself by every engine. *)
Theorem plain_text_is_identity (text : str) :
  Forall plain text →
  lex text = push_text [] text
  ∧ ∀ (Ctx Embed : Type) (variables : gmap str (VariableHandler Ctx))
      (functions : gmap str (FunctionHandler Ctx Embed)) ctx,
      InterpolationEngine_render variables functions text ctx
      = Ok (mkRenderResult text [] []).
Proof.
  intros Hplain.
  assert (Hlex : lex text = push_text [] text).
  { apply (lex_loop_lex (length text + 0)).
    by rewrite lex_loop_plain_end. }
  split; [done|]. intros Ctx Embed variables functions ctx.
  destruct text as [|c text]; [done|].
  by apply render_single_text.
Qed.

Lemma plain_text_is_identity_witness :
  lex "hello world" = [TextNode "hello world"].
Proof.
  refine (proj1 (plain_text_is_identity "hello world" _)).
  repeat constructor; discriminate.
Defined.

(** X2: a template that begins with a brace is lexed to the node of that
    brace span followed by the nodes of what comes after the span; plain
    text before a brace is a text node followed by the nodes of the rest. *)
Theorem lex_splits_at_placeholders :
  (∀ r node consumed,
     _parse_placeholder (λ s, Some (lex s)) ("{"%char :: r)
     = Some (node, consumed) →
     lex ("{"%char :: r) = node :: lex (drop consumed ("{"%char :: r)))
  ∧ (∀ pre r, Forall plain pre → pre ≠ [] →
       lex (pre ++ "{"%char :: r) = TextNode pre :: lex ("{"%char :: r)).
Proof.
  split.
  - intros r node consumed Hp.
    pose proof (lex_unfold ("{"%char :: r)) as Hu.
    cbn [length lex_loop] in Hu. change ESCAPE_CHAR with "\"%char in Hu.
    cbn [Ascii.eqb Bool.eqb] in Hu. cbv iota in Hu.
    rewrite Hp in Hu. cbn [mbind option_bind] in Hu.
    rewrite lex_loop_nodes in Hu.
    destruct (lex_loop _ (length r) _ [] []) as [r'|] eqn:Hr'; [|done].
    apply lex_loop_lex in Hr'. simpl in Hu. injection Hu as <-.
    by rewrite Hr'.
  - intros pre r Hpre Hne.
    pose proof (lex_unfold ("{"%char :: r)) as Hu.
    apply (lex_loop_lex (length pre + length ("{"%char :: r))).
    rewrite lex_loop_plain by done. rewrite lex_loop_nodes in Hu.
    cbn [length lex_loop] in Hu |- *. change ESCAPE_CHAR with "\"%char in *.
    cbn [Ascii.eqb Bool.eqb] in Hu |- *. cbv iota in Hu |- *.
    destruct (_parse_placeholder _ ("{"%char :: r)) as [[node consumed]|];
      [|done].
    cbn [mbind option_bind] in Hu |- *.
    rewrite lex_loop_nodes. rewrite lex_loop_nodes in Hu.
    destruct (lex_loop _ (length r) _ [] []) as [r'|]; [|done].
    simpl in Hu |- *. injection Hu as <-.
    by destruct pre.
Qed.

Lemma lex_splits_at_placeholders_witness :
  lex "Hi {user.name}!" = TextNode "Hi " :: lex "{user.name}!".
Proof.
  refine (proj2 lex_splits_at_placeholders "Hi " "user.name}!" _ _);
    [repeat constructor; discriminate | discriminate].
Defined.





Lemma pieces_length (s : str) :
  ∀ marks cur,
    length marks = length s →
    sum_list (length <$> pieces s marks cur) + length (List.filter id marks)
    = length cur + length s.
Proof.
  induction s as [|c s IH]; intros [|m marks] cur Hlen;
    try done; try (simpl; lia).
  simpl in Hlen. destruct m; csimpl.
  - specialize (IH marks [] ltac:(lia)). csimpl in IH. lia.
  - specialize (IH marks (cur ++ [c]) ltac:(lia)).
    rewrite length_app in IH. csimpl in IH. lia.
Qed.

Lemma sum_list_filter_nonempty (l : list str) :
  sum_list (length <$> List.filter nonempty l) = sum_list (length <$> l).
Proof.
  induction l as [|s l IH]; [done|]. csimpl.
  destruct s; csimpl; by rewrite IH.
Qed.

(** X4: splitting the arguments loses the separators and nothing else: the
    lengths of the segments and the number of separators add up to the
    length of the arguments portion. *)
Theorem split_arguments_accounts (args_str : str) :
  sum_list (length <$> _split_arguments args_str)
  + length (List.filter id (separators args_str))
  = length args_str.
Proof.
  rewrite _split_arguments_spec, sum_list_filter_nonempty.
  rewrite pieces_length; [done|]. apply separator_marks_length.
Qed.

Lemma _parse_placeholder_loop_Some (rest : str) :
  ∀ i depth escaped j,
    (1 ≤ depth)%Z →
    _parse_placeholder_loop rest i depth escaped = Some j →
    ∃ k, j = i + k ∧ k < length rest
         ∧ scan_braces (take (S k) rest) depth escaped = (0%Z, false)
         ∧ ∀ m, m ≤ k → (1 ≤ (scan_braces (take m rest) depth escaped).1)%Z.
Proof.
  induction rest as [|char rest IH]; intros i depth escaped j Hd; [done|].
  assert (Hstep : ∀ d e,
    (1 ≤ d)%Z →
    (∀ m, scan_braces (take (S m) (char :: rest)) depth escaped
          = scan_braces (take m rest) d e) →
    _parse_placeholder_loop rest (S i) d e = Some j →
    ∃ k, j = i + k ∧ k < length (char :: rest)
         ∧ scan_braces (take (S k) (char :: rest)) depth escaped = (0%Z, false)
         ∧ ∀ m, m ≤ k →
                (1 ≤ (scan_braces (take m (char :: rest)) depth escaped).1)%Z).
  { intros d e Hd' Hscan Hj.
    apply IH in Hj as (k & -> & Hk & Hend & Hpos); [|done].
    exists (S k). split; [lia|]. split; [simpl; lia|].
    split; [by rewrite Hscan|].
    intros [|m] Hm; [done|]. rewrite Hscan. apply Hpos. lia. }
  cbn [_parse_placeholder_loop]. change ESCAPE_CHAR with "\"%char.
  destruct escaped.
  { rewrite andb_false_r. by apply Hstep. }
  rewrite andb_true_r.
  destruct (Ascii.eqb char "\") eqn:E1.
  { apply Hstep; [done|]. intros m. cbn [take scan_braces]. by rewrite E1. }
  destruct (Ascii.eqb char "{") eqn:E2.
  { apply Hstep; [lia|]. intros m. cbn [take scan_braces].
    by rewrite E1, E2. }
  destruct (Ascii.eqb char "}") eqn:E3.
  2: { apply Hstep; [done|]. intros m. cbn [take scan_braces].
       by rewrite E1, E2, E3. }
  destruct (Z.eqb_spec (depth - 1) 0) as [H0|H0].
  2: { apply Hstep; [lia|]. intros m. cbn [take scan_braces].
       by rewrite E1, E2, E3. }
  intros [= <-]. exists 0. split; [lia|]. split; [simpl; lia|].
  split.
  - cbn [take scan_braces]. rewrite E1, E2, E3, take_0. simpl. by rewrite H0.
  - intros m Hm. replace m with 0 by lia. done.
Qed.

(** X5: the span that [_parse_placeholder] takes from a text that begins
    with a brace is its shortest prefix in which the brace depth is back
    at 0, and the whole text when there is no such prefix; the raw text of
    the node is that span. *)
Theorem parse_placeholder_span (lex_rec : str → option (list Node))
    (r : str) (node : Node) (consumed : nat) :
  _parse_placeholder lex_rec ("{"%char :: r) = Some (node, consumed) →
  raw node = take consumed ("{"%char :: r)
  ∧ 1 ≤ consumed ≤ length ("{"%char :: r)
  ∧ (∀ k, 0 < k < consumed → brace_depth (take k ("{"%char :: r)) ≠ 0%Z)
  ∧ (brace_depth (take consumed ("{"%char :: r)) = 0%Z
     ∨ (consumed = length ("{"%char :: r) ∧ unclosed ("{"%char :: r)
        ∧ node = TextNode ("{"%char :: r))).
Proof.
  intros Hp.
  destruct (_parse_placeholder_consumed _ _ _ _ Hp) as (Hle & Hge & Hraw).
  specialize (Hge ltac:(done)).
  split; [done|]. split; [done|].
  unfold _parse_placeholder in Hp.
  destruct (_parse_placeholder_loop ("{"%char :: r) 0 0 false) as [i|] eqn:Hi.
  - assert (Hc : consumed = i + 1).
    { destruct (nonempty _); [|by injection Hp as _ <-].
      destruct (_parse_arguments _ _) as [[name args]|]; [|done].
      by injection Hp as _ <-. }
    simpl in Hi.
    apply _parse_placeholder_loop_Some in Hi as (k & -> & Hk & Hend & Hpos);
      [|lia].
    replace (1 + k + 1) with (S (S k)) in Hc by lia. subst consumed.
    unfold brace_depth. split.
    + intros [|m] Hm; [lia|]. cbn [take scan_braces Ascii.eqb Bool.eqb].
      cbv iota. specialize (Hpos m ltac:(lia)).
      change (0 + 1)%Z with 1%Z in *. lia.
    + left. cbn [take scan_braces Ascii.eqb Bool.eqb]. cbv iota.
      change (0 + 1)%Z with 1%Z in *. by rewrite Hend.
  - injection Hp as <- <-.
    apply _parse_placeholder_loop_None in Hi.
    split; [|by right]. intros k Hk. apply Hi. lia.
Qed.

Lemma parse_placeholder_span_witness :
  raw (PlaceholderNode "{a:{b}}" "a" [[PlaceholderNode "{b}" "b" []]])
  = take 7 "{a:{b}}c}".
Proof.
  refine (proj1 (parse_placeholder_span (λ s, Some (lex s)) "a:{b}}c}"
                   _ 7 _)).
  by vm_compute.
Defined.

(** ** The shape of the nodes *)

Lemma lstrip_head (s : str) :
  match lstrip s with [] => True | c :: _ => isspace c = false end.
Proof.
  induction s as [|c s IH]; simpl; [done|].
  destruct (isspace c) eqn:E; [done|]. done.
Qed.

Lemma lstrip_fixed (s : str) :
  match s with [] => True | c :: _ => isspace c = false end → lstrip s = s.
Proof. destruct s as [|c s]; simpl; [done|]. by intros ->. Qed.

Lemma lstrip_drop (s : str) : ∃ k, lstrip s = drop k s.
Proof.
  induction s as [|c s [k IH]]; simpl; [by exists 0|].
  destruct (isspace c); [by exists (S k)|by exists 0].
Qed.

Lemma rstrip_take (s : str) : ∃ k, rstrip s = take k s.
Proof.
  unfold rstrip. destruct (lstrip_drop (rev s)) as [k ->].
  exists (length s - k). by rewrite List.skipn_rev, rev_involutive.
Qed.

(** [strip] leaves what it has stripped as it is. *)
Lemma strip_strip (s : str) : strip (strip s) = strip s.
Proof.
  unfold strip.
  assert (Hl : lstrip (rstrip (lstrip s)) = rstrip (lstrip s)).
  { apply lstrip_fixed. pose proof (lstrip_head s) as Hh.
    destruct (rstrip_take (lstrip s)) as [k ->].
    destruct (lstrip s) as [|c u]; [by rewrite take_nil|].
    by destruct k. }
  rewrite Hl. unfold rstrip. rewrite rev_involutive.
  f_equal. apply lstrip_fixed, lstrip_head.
Qed.

Lemma strip_nonempty_not_blank (s : str) :
  nonempty (strip s) = true → ¬ blank s.
Proof. intros H Hb. by rewrite (strip_blank s Hb) in H. Qed.

Lemma _parse_placeholder_loop_brace (rest : str) :
  ∀ i depth escaped j,
    _parse_placeholder_loop rest i depth escaped = Some j →
    ∃ k, j = i + k ∧ rest !! k = Some "}"%char.
Proof.
  induction rest as [|char rest IH]; intros i depth escaped j; [done|].
  cbn [_parse_placeholder_loop].
  assert (Hstep : ∀ d e, _parse_placeholder_loop rest (S i) d e = Some j →
                         ∃ k, j = i + k ∧ (char :: rest) !! k = Some "}"%char).
  { intros d e (k & -> & Hk)%IH. exists (S k). split; [lia|done]. }
  repeat case_match; try apply Hstep.
  intros [= <-]. exists 0. split; [lia|].
  by match goal with H : Ascii.eqb char "}" = true |- _ =>
       apply Ascii.eqb_eq in H as -> end.
Qed.

(** The loop of [lex] makes a node of everything it reads. *)
Lemma lex_loop_nonempty (lex_rec : str → option (list Node)) (fuel : nat) :
  ∀ rest buffer nodes r,
    lex_loop lex_rec fuel rest buffer nodes = Some r →
    rest ≠ [] ∨ buffer ≠ [] ∨ nodes ≠ [] → r ≠ [].
Proof.
  induction fuel as [|fuel IH]; intros rest buffer nodes r;
    destruct rest as [|char rest]; simpl.
  1,3: intros [= <-] [?|[?|?]]; try done; unfold push_text;
       destruct buffer, nodes; done.
  { done. }
  destruct (if Ascii.eqb char ESCAPE_CHAR then rest else [])
    as [|next_char rest''].
  - destruct (Ascii.eqb char "{").
    + destruct (_parse_placeholder lex_rec (char :: rest))
        as [[node consumed]|]; [|done].
      simpl. intros Hr _. apply IH in Hr; [done|].
      right. right. by destruct (push_text nodes buffer).
    + intros Hr _. apply IH in Hr; [done|]. right. left. by destruct buffer.
  - destruct (is_special next_char); intros Hr _;
      (apply IH in Hr; [done|]); right; left; by destruct buffer.
Qed.

Lemma lex_nonempty (text : str) : text ≠ [] → lex text ≠ [].
Proof.
  intros Hne. pose proof (lex_unfold text) as H.
  apply lex_loop_nonempty in H; [done|by left].
Qed.

Lemma _parse_arguments_well_formed (inner name : str)
    (args : list (list Node)) :
  (∀ s, length s ≤ length inner → Forall well_formed (lex s)) →
  _parse_arguments (λ s, Some (lex s)) inner = Some (name, args) →
  strip name = name
  ∧ Forall (λ arg_group, arg_group ≠ [] ∧ Forall well_formed arg_group) args.
Proof.
  intros IH. unfold _parse_arguments.
  destruct (_ =? _)%Z.
  { intros [= <- <-]. split; [apply strip_strip|done]. }
  rewrite mapM_Some_map. simpl. intros [= <- <-].
  split; [apply strip_strip|]. apply Forall_map.
  pose proof (_split_arguments_nonempty
                (drop (Z.to_nat (_find_separator inner ":" + 1)) inner)) as Hne.
  pose proof (_split_arguments_span
                (drop (Z.to_nat (_find_separator inner ":" + 1)) inner)) as Hsp.
  rewrite Forall_forall in Hne, Hsp. apply Forall_forall. intros seg Hseg.
  split; [by apply lex_nonempty, Hne|].
  apply IH. apply span_of_length.
  eapply span_of_trans; [by apply Hsp|apply span_of_drop].
Qed.

Lemma _parse_placeholder_well_formed (r : str) (node : Node)
    (consumed : nat) :
  (∀ s, length s < length ("{"%char :: r) → Forall well_formed (lex s)) →
  _parse_placeholder (λ s, Some (lex s)) ("{"%char :: r)
  = Some (node, consumed) →
  well_formed node.
Proof.
  intros IH. unfold _parse_placeholder.
  destruct (_parse_placeholder_loop ("{"%char :: r) 0 0 false) as [i|] eqn:Hi.
  2: { intros [= <- <-]. by constructor. }
  simpl in Hi. apply _parse_placeholder_loop_brace in Hi as (k & -> & Hk).
  assert (Hraw : take (1 + k + 1) ("{"%char :: r)
                 = "{" ++ take k r ++ "}").
  { replace (1 + k + 1) with (S (S k)) by lia.
    cbn [take]. by rewrite (take_S_r _ _ _ Hk). }
  rewrite Hraw.
  assert (Hinner : slice 1 (length ("{" ++ take k r ++ "}") - 1)
                     ("{" ++ take k r ++ "}") = take k r).
  { unfold slice. simpl. rewrite length_app. simpl. rewrite drop_0.
    replace (length (take k r) + 1 - 0 - 1) with (length (take k r)) by lia.
    by rewrite take_app_length. }
  rewrite Hinner.
  destruct (nonempty (strip (take k r))) eqn:Hne.
  2: { intros [= <- <-]. by constructor. }
  destruct (_parse_arguments _ (take k r)) as [[name args]|] eqn:Hargs;
    [|done].
  simpl. intros [= <- <-].
  apply _parse_arguments_well_formed in Hargs as [Hname Hgroups].
  - by apply (well_formed_placeholder _ _ _ (take k r));
      [|apply strip_nonempty_not_blank|..].
  - intros s Hs. apply IH. rewrite length_take in Hs. simpl. lia.
Qed.

Lemma lex_loop_well_formed (n : nat) :
  (∀ s, length s < n → Forall well_formed (lex s)) →
  ∀ fuel rest buffer nodes r,
    length rest ≤ n → Forall well_formed nodes →
    lex_loop (λ s, Some (lex s)) fuel rest buffer nodes = Some r →
    Forall well_formed r.
Proof.
  intros Hrec.
  assert (Hpush : ∀ nodes buffer,
    Forall well_formed nodes → Forall well_formed (push_text nodes buffer)).
  { intros nodes buffer Hn. unfold push_text.
    destruct buffer; [done|]. apply Forall_app. split; [done|].
    apply Forall_singleton. by constructor. }
  induction fuel as [|fuel IH]; intros rest buffer nodes r Hlen Hnodes;
    destruct rest as [|char rest]; simpl.
  1,3: intros [= <-]; by apply Hpush.
  { done. }
  simpl in Hlen.
  destruct (if Ascii.eqb char ESCAPE_CHAR then rest else [])
    as [|next_char rest''] eqn:Hesc.
  - destruct (Ascii.eqb_spec char "{") as [->|]; [|apply IH; [lia|done]].
    destruct (_parse_placeholder _ ("{"%char :: rest))
      as [[node consumed]|] eqn:Hp; [|done].
    simpl. apply IH.
    + rewrite length_drop. simpl. lia.
    + apply Forall_app. split; [by apply Hpush|].
      apply Forall_singleton.
      eapply _parse_placeholder_well_formed; [|exact Hp].
      intros s Hs. apply Hrec. simpl in Hs. lia.
  - destruct (Ascii.eqb char ESCAPE_CHAR); [|done]. subst rest.
    simpl in Hlen.
    destruct (is_special next_char); apply IH; simpl; try done; lia.
Qed.

Lemma lex_well_formed (n : nat) :
  ∀ text, length text ≤ n → Forall well_formed (lex text).
Proof.
  induction n as [n IH] using lt_wf_ind. intros text Hlen.
  pose proof (lex_unfold text) as H.
  eapply (lex_loop_well_formed (length text)); [| | |exact H]; [|done|done].
  intros s Hs. apply (IH (length s)); [lia|done].
Qed.

(** X6: every node that [lex] makes, at every level, is well formed: no
    text node is empty, the raw text of a placeholder is a brace span
    around text that is not blank, its name has no white space around it,
    and no argument group is empty.  [lex] returns no node for the empty
    text only. *)
Theorem lex_makes_well_formed_nodes (text : str) :
  Forall well_formed (lex text) ∧ (lex text = [] ↔ text = []).
Proof.
  split; [by apply (lex_well_formed (length text))|].
  split; [|by intros ->].
  intros H. destruct text as [|c text]; [done|].
  by apply lex_nonempty in H.
Qed.

Lemma lex_loop_raw_length (lex_rec : str → option (list Node)) (fuel : nat) :
  ∀ rest buffer nodes r,
    lex_loop lex_rec fuel rest buffer nodes = Some r →
    length (concat (map raw r))
    ≤ length (concat (map raw nodes)) + length buffer + length rest.
Proof.
  assert (Hpush : ∀ nodes buffer,
    length (concat (map raw (push_text nodes buffer)))
    = length (concat (map raw nodes)) + length buffer).
  { intros nodes buffer. unfold push_text. destruct buffer; simpl; [lia|].
    rewrite map_app, concat_app, length_app. simpl.
    rewrite app_nil_r. done. }
  induction fuel as [|fuel IH]; intros rest buffer nodes r;
    destruct rest as [|char rest]; simpl.
  1,3: intros [= <-]; rewrite Hpush; lia.
  { done. }
  destruct (if Ascii.eqb char ESCAPE_CHAR then rest else [])
    as [|next_char rest''] eqn:Hesc.
  - destruct (Ascii.eqb char "{").
    + destruct (_parse_placeholder lex_rec (char :: rest))
        as [[node consumed]|] eqn:Hp; [|done].
      simpl. intros Hr. apply IH in Hr.
      apply _parse_placeholder_consumed in Hp as (Hle & _ & Hraw).
      rewrite map_app, concat_app, length_app, Hpush in Hr. simpl in Hr.
      rewrite app_nil_r, Hraw, length_take, length_drop in Hr.
      simpl in Hr, Hle. lia.
    + intros Hr. apply IH in Hr. rewrite length_app in Hr. simpl in Hr. lia.
  - destruct (Ascii.eqb char ESCAPE_CHAR); [|done]. subst rest.
    destruct (is_special next_char); intros Hr; apply IH in Hr;
      rewrite length_app in Hr; simpl in Hr |- *; lia.
Qed.

Lemma well_formed_raw (node : Node) : well_formed node → raw node ≠ [].
Proof. by intros [value Hv|node_raw name args inner -> _ _ _]. Qed.

Lemma length_concat_nonempty (l : list str) :
  Forall (λ s, s ≠ []) l → length l ≤ length (concat l).
Proof.
  induction 1 as [|s l Hs _ IH]; simpl; [lia|].
  rewrite length_app. destruct s; [done|]. simpl. lia.
Qed.

(** X7: the lexer adds no character: the raw texts of the nodes of
    [lex(text)] have, together, at most the length of [text], and there
    are at most as many nodes as characters. *)
Theorem lex_is_bounded_by_its_input (text : str) :
  length (concat (map raw (lex text))) ≤ length text
  ∧ length (lex text) ≤ length text.
Proof.
  assert (H : length (concat (map raw (lex text))) ≤ length text).
  { pose proof (lex_unfold text) as Hu.
    apply lex_loop_raw_length in Hu. simpl in Hu. lia. }
  split; [done|].
  pose proof (lex_well_formed (length text) text ltac:(done)) as Hwf.
  etrans; [|exact H]. rewrite <- (length_map raw).
  apply length_concat_nonempty, Forall_map.
  eapply Forall_impl; [exact Hwf|]. apply well_formed_raw.
Qed.

(** * More on the interpreter *)

Section interpreter_more.
Context {Ctx Embed : Type}.
Variable variables : gmap str (VariableHandler Ctx).
Variable functions : gmap str (FunctionHandler Ctx Embed).

Abbreviation eval1 := (_eval variables functions).

Lemma render_nodes_app (self_eval : Node → Ctx → nat → M Embed str)
    (nodes1 nodes2 : list Node) (ctx : Ctx) :
  ∀ st st1,
    render_nodes self_eval nodes1 ctx st = (Ok tt, st1) →
    render_nodes self_eval (nodes1 ++ nodes2) ctx st
    = render_nodes self_eval nodes2 ctx st1.
Proof.
  induction nodes1 as [|node nodes1 IH]; intros st st1.
  - simpl. unfold ret. by intros [= <-].
  - cbn [app]. rewrite !render_nodes_cons. apply IH.
Qed.

Lemma render_nodes_content (nodes : list Node) (ctx : Ctx) :
  ∀ st st',
    render_nodes eval1 nodes ctx st = (Ok tt, st') →
    content st `prefix_of` content st'.
Proof.
  induction nodes as [|node nodes IH]; intros st st'.
  - simpl. unfold ret. by intros [= <-].
  - destruct (_eval_returns variables functions node ctx 0 st)
      as (s & st1 & Hev).
    rewrite render_nodes_eval with (1 := Hev). intros H%IH.
    etrans; [|exact H]. simpl. by apply prefix_app_r.
Qed.

Lemma Interpreter_render_run (nodes : list Node) (ctx : Ctx)
    (st : RenderResult Embed) :
  ∃ r, Interpreter_render variables functions nodes ctx st = (Ok r, r)
       ∧ render_nodes eval1 nodes ctx st = (Ok tt, r).
Proof.
  destruct (render_nodes_returns eval1 nodes ctx st) as ([] & r & Hr).
  exists r. split; [|done].
  unfold Interpreter_render, bind, get_result. by rewrite Hr.
Qed.

(** X8: [Interpreter.render] on a list of nodes is the rendering of its
    first part followed by the rendering of the rest in the result of the
    first, and the content only grows at its end, whatever the handlers do
    to the result. *)
Theorem render_is_sequential (nodes1 nodes2 : list Node) (ctx : Ctx)
    (st : RenderResult Embed) :
  ∃ r1 r2,
    Interpreter_render variables functions nodes1 ctx st = (Ok r1, r1)
    ∧ Interpreter_render variables functions nodes2 ctx r1 = (Ok r2, r2)
    ∧ Interpreter_render variables functions (nodes1 ++ nodes2) ctx st
      = (Ok r2, r2)
    ∧ content st `prefix_of` content r1
    ∧ content r1 `prefix_of` content r2.
Proof.
  destruct (Interpreter_render_run nodes1 ctx st) as (r1 & H1 & Hn1).
  destruct (Interpreter_render_run nodes2 ctx r1) as (r2 & H2 & Hn2).
  exists r1, r2. split; [done|]. split; [done|]. split.
  - unfold Interpreter_render, bind, get_result.
    by rewrite (render_nodes_app _ _ _ _ _ _ Hn1), Hn2.
  - split; by eapply render_nodes_content.
Qed.

(** *** What the handlers keep, the interpreter keeps *)

Section invariant.
Variable P : RenderResult Embed → Prop.
Hypothesis P_functions : ∀ name handler ctx st args,
  functions !! name = Some handler → P st → P (handler ctx st args).2.

Lemma eval_group_invariant (ev : Node → M Embed str) (arg_group : list Node) :
  Forall (λ n, ∀ st s st', P st → ev n st = (Ok s, st') → P st') arg_group →
  ∀ arg_value st s st',
    P st → eval_group ev arg_group arg_value st = (Ok s, st') → P st'.
Proof.
  induction 1 as [|n ns Hn _ IH]; intros acc st s st' HP; simpl.
  - unfold ret. by intros [= _ <-].
  - unfold bind. destruct (ev n st) as [[v|] st1] eqn:Hev; [|done].
    apply IH. by eapply Hn.
Qed.

Lemma eval_groups_invariant (ev : Node → M Embed str)
    (groups : list (list Node)) :
  Forall (Forall (λ n, ∀ st s st', P st → ev n st = (Ok s, st') → P st'))
    groups →
  ∀ evaluated_args st vs st',
    P st → eval_groups ev groups evaluated_args st = (Ok vs, st') → P st'.
Proof.
  induction 1 as [|g gs Hg _ IH]; intros acc st vs st' HP; simpl.
  - unfold ret. by intros [= _ <-].
  - unfold bind. destruct (eval_group ev g [] st) as [[v|] st1] eqn:Hev;
      [|done].
    apply IH. by eapply eval_group_invariant.
Qed.

Lemma _eval_invariant (node : Node) :
  ∀ ctx depth st s st',
    P st → eval1 node ctx depth st = (Ok s, st') → P st'.
Proof.
  induction node as [value|node_raw name args IH] using Node_nested_ind;
    intros ctx depth st s st' HP; rewrite _eval_unfold;
    destruct (MAX_NESTING <? depth) eqn:Hd;
    try (unfold ret; by intros [= _ <-]).
  apply Nat.ltb_ge in Hd.
  destruct (if args is [] then variables !! name else None) as [hv|] eqn:Hv.
  { unfold _eval_placeholder. rewrite Hv.
    unfold try_except, bind, call_variable, ret.
    destruct (hv ctx); by intros [= _ <-]. }
  destruct (functions !! name) as [hf|] eqn:Hf.
  2: { unfold _eval_placeholder. rewrite Hv, Hf. unfold ret.
       by intros [= _ <-]. }
  destruct (_eval_function variables functions node_raw name args ctx depth
              hf st Hd Hv Hf) as (vs & st1 & Hvs & Hev).
  rewrite <- (_eval_shallow variables functions
                (PlaceholderNode node_raw name args) ctx depth Hd).
  rewrite Hev. intros [= _ <-].
  eapply P_functions; [done|].
  eapply eval_groups_invariant; [|exact HP|exact Hvs].
  eapply Forall_impl; [exact IH|]. intros g Hg.
  eapply Forall_impl; [exact Hg|]. intros n Hn st2 s2 st3. apply Hn.
Qed.

Hypothesis P_content : ∀ c st, P st → P (with_content c st).

Lemma render_nodes_invariant (nodes : list Node) (ctx : Ctx) :
  ∀ st st', P st → render_nodes eval1 nodes ctx st = (Ok tt, st') → P st'.
Proof.
  induction nodes as [|node nodes IH]; intros st st' HP.
  - simpl. unfold ret. by intros [= <-].
  - destruct (_eval_returns variables functions node ctx 0 st)
      as (s & st1 & Hev).
    rewrite render_nodes_eval with (1 := Hev). apply IH.
    apply P_content. by eapply _eval_invariant.
Qed.

Lemma InterpolationEngine_render_invariant (text : str) (ctx : Ctx)
    (r : RenderResult Embed) :
  P empty_result →
  InterpolationEngine_render variables functions text ctx = Ok r → P r.
Proof.
  intros HP. unfold InterpolationEngine_render.
  destruct (nonempty text); [|by intros [= <-]].
  destruct (Interpreter_render_run (lex text) ctx empty_result)
    as (r' & -> & Hn).
  simpl. intros [= <-]. by eapply render_nodes_invariant.
Qed.
End invariant.

(** X9: a property of the result that every Function handler keeps, and
    that does not depend on the content, holds of the result of [render]
    when it holds of the empty result. *)
Theorem render_keeps_handler_invariants (P : RenderResult Embed → Prop) :
  (∀ name handler ctx st args,
     functions !! name = Some handler → P st → P (handler ctx st args).2) →
  (∀ c st, P st → P (with_content c st)) →
  P empty_result →
  ∀ text ctx r,
    InterpolationEngine_render variables functions text ctx = Ok r → P r.
Proof.
  intros Hf Hc H0 text ctx r. by apply InterpolationEngine_render_invariant.
Qed.

End interpreter_more.

Lemma render_keeps_handler_invariants_witness :
  ∃ r, InterpolationEngine_render ∅ emoji_functions
         "{emoji:a}{emoji:b}{emoji:a}" tt = Ok r
       ∧ emojis r = ["a" : str; "b" : str]
       ∧ NoDup (emojis r).
Proof.
  exists (mkRenderResult [] [] ["a" : str; "b" : str]).
  split; [by vm_compute|]. split; [done|].
  apply (render_keeps_handler_invariants ∅ emoji_functions
           (λ st, NoDup (emojis st)))
    with (text := "{emoji:a}{emoji:b}{emoji:a}" : str) (ctx := tt).
  - intros name handler ctx st args Hh Hst. unfold emoji_functions in Hh.
    apply lookup_singleton_Some in Hh as [_ <-].
    unfold emoji_handler. destruct args as [|emoji [|? ?]]; try done.
    simpl. unfold add_emoji. case_bool_decide; [done|]. simpl.
    apply NoDup_app. split; [done|]. split; [|apply NoDup_singleton].
    intros x Hx ->%list_elem_of_singleton. done.
  - done.
  - simpl. constructor.
  - by vm_compute.
Defined.

(** ** The methods of [RenderResult] *)

Section render_result.
Context {Embed : Type}.
Implicit Types r self other : RenderResult Embed.

Lemma add_emoji_emojis emoji r :
  emojis (add_emoji emoji r)
  = if bool_decide (emoji ∈ emojis r) then emojis r
    else emojis r ++ [emoji].
Proof. unfold add_emoji. by case_bool_decide. Qed.

Lemma add_emoji_elem emoji r x :
  x ∈ emojis (add_emoji emoji r) ↔ x ∈ emojis r ∨ x = emoji.
Proof.
  rewrite add_emoji_emojis. case_bool_decide.
  - split; [by left|]. by intros [?| ->].
  - rewrite elem_of_app, list_elem_of_singleton. done.
Qed.

Lemma add_emoji_NoDup emoji r :
  NoDup (emojis r) → NoDup (emojis (add_emoji emoji r)).
Proof.
  intros Hr. rewrite add_emoji_emojis. case_bool_decide; [done|].
  apply NoDup_app. split; [done|]. split; [|apply NoDup_singleton].
  intros x Hx ->%list_elem_of_singleton. done.
Qed.

Lemma add_emoji_other emoji r :
  content (add_emoji emoji r) = content r
  ∧ embeds (add_emoji emoji r) = embeds r.
Proof. unfold add_emoji. by case_bool_decide. Qed.

(** X10: [add_emoji] keeps the emojis free of duplicates, adds exactly its
    argument, at the end, keeps what is there, and adding an emoji a second
    time changes nothing. *)
Theorem add_emoji_is_set_insertion emoji r :
  (NoDup (emojis r) → NoDup (emojis (add_emoji emoji r)))
  ∧ (∀ x, x ∈ emojis (add_emoji emoji r) ↔ x ∈ emojis r ∨ x = emoji)
  ∧ emojis r `prefix_of` emojis (add_emoji emoji r)
  ∧ add_emoji emoji (add_emoji emoji r) = add_emoji emoji r
  ∧ content (add_emoji emoji r) = content r
  ∧ embeds (add_emoji emoji r) = embeds r.
Proof.
  split; [apply add_emoji_NoDup|]. split; [apply add_emoji_elem|].
  split; [|split; [|apply add_emoji_other]].
  - rewrite add_emoji_emojis. case_bool_decide; [done|].
    by apply prefix_app_r.
  - unfold add_emoji at 1. rewrite bool_decide_true; [done|].
    apply add_emoji_elem. by right.
Qed.

Lemma foldl_add_emoji_other (l : list str) :
  ∀ r, content (foldl (λ r e, add_emoji e r) r l) = content r
       ∧ embeds (foldl (λ r e, add_emoji e r) r l) = embeds r.
Proof.
  induction l as [|e l IH]; intros r; simpl; [done|].
  destruct (IH (add_emoji e r)) as [-> ->]. apply add_emoji_other.
Qed.

Lemma foldl_add_emoji_NoDup (l : list str) :
  ∀ r, NoDup (emojis r) → NoDup (emojis (foldl (λ r e, add_emoji e r) r l)).
Proof.
  induction l as [|e l IH]; intros r Hr; simpl; [done|].
  by apply IH, add_emoji_NoDup.
Qed.

Lemma foldl_add_emoji_elem (l : list str) :
  ∀ r x, x ∈ emojis (foldl (λ r e, add_emoji e r) r l)
         ↔ x ∈ emojis r ∨ x ∈ l.
Proof.
  induction l as [|e l IH]; intros r x; simpl.
  - rewrite elem_of_nil. tauto.
  - rewrite IH, add_emoji_elem, elem_of_cons. tauto.
Qed.

Lemma foldl_add_emoji_prefix (l : list str) :
  ∀ r, emojis r `prefix_of` emojis (foldl (λ r e, add_emoji e r) r l).
Proof.
  induction l as [|e l IH]; intros r; simpl; [done|].
  etrans; [|apply IH]. rewrite add_emoji_emojis.
  case_bool_decide; [done|]. by apply prefix_app_r.
Qed.

Lemma foldl_add_emoji_id (l : list str) :
  ∀ r, (∀ x, x ∈ l → x ∈ emojis r) → foldl (λ r e, add_emoji e r) r l = r.
Proof.
  induction l as [|e l IH]; intros r Hl; simpl; [done|].
  assert (add_emoji e r = r) as ->.
  { unfold add_emoji. rewrite bool_decide_true; [done|].
    apply Hl. by left. }
  apply IH. intros x Hx. apply Hl. by right.
Qed.

(** X11: [merge] appends the content and the embeds of the other result,
    and makes the union of the emojis: those of [self] stay first and in
    order, every emoji of either result is there and no other, and the
    list stays free of duplicates.  Merging the empty result changes
    nothing, and merging the same result once more adds no emoji. *)
Theorem merge_appends_and_unites self other :
  content (merge self other) = content self ++ content other
  ∧ embeds (merge self other) = embeds self ++ embeds other
  ∧ (∀ x, x ∈ emojis (merge self other)
          ↔ x ∈ emojis self ∨ x ∈ emojis other)
  ∧ emojis self `prefix_of` emojis (merge self other)
  ∧ (NoDup (emojis self) → NoDup (emojis (merge self other)))
  ∧ merge self empty_result = self
  ∧ emojis (merge (merge self other) other) = emojis (merge self other).
Proof.
  unfold merge.
  split; [apply foldl_add_emoji_other|].
  split; [apply foldl_add_emoji_other|].
  split; [intros x; by rewrite foldl_add_emoji_elem|].
  split; [apply (foldl_add_emoji_prefix _ (mkRenderResult _ _ _))|].
  split; [apply (foldl_add_emoji_NoDup _ (mkRenderResult _ _ _))|].
  split.
  - simpl. rewrite !app_nil_r. by destruct self.
  - rewrite foldl_add_emoji_id; [done|].
    intros x Hx. simpl. apply foldl_add_emoji_elem. by right.
Qed.
End render_result.

Lemma add_emoji_is_set_insertion_witness :
  NoDup (emojis (add_emoji "b" (add_emoji "a" (@empty_result unit)))).
Proof.
  apply add_emoji_is_set_insertion, add_emoji_is_set_insertion.
  simpl. constructor.
Defined.

Lemma merge_appends_and_unites_witness :
  NoDup (emojis (merge (mkRenderResult "x" [tt] ["a" : str; "b" : str])
                   (mkRenderResult "y" [tt] ["b" : str; "c" : str; "c" : str]))).
Proof.
  apply merge_appends_and_unites. simpl.
  repeat constructor; rewrite ?elem_of_cons, ?elem_of_nil; intros H;
    repeat destruct H as [H|H]; done.
Defined.

(** ** Engines with few handlers *)





(** X13: only Function handlers make embeds and emojis: the result of an
    engine that has Variables only has none. *)
Theorem variables_make_no_artifacts {Ctx Embed : Type}
    (variables : gmap str (VariableHandler Ctx)) (text : str) (ctx : Ctx)
    (r : RenderResult Embed) :
  InterpolationEngine_render variables ∅ text ctx = Ok r →
  embeds r = [] ∧ emojis r = [].
Proof.
  apply (InterpolationEngine_render_invariant variables ∅
           (λ st, embeds st = [] ∧ emojis st = [])); done.
Qed.

Lemma variables_make_no_artifacts_witness :
  embeds (mkRenderResult (Embed := unit) "hello" [] []) = []
  ∧ emojis (mkRenderResult (Embed := unit) "hello" [] []) = [].
Proof.
  apply (variables_make_no_artifacts greet_variables "{greet}" tt).
  by vm_compute.
Defined.

(** X14: with the Function [emoji] of the placeholder manager as the only
    Function, no emoji is listed twice in the result of any template, and
    there are no embeds. *)
Theorem emoji_placeholder_lists_once {Ctx Embed : Type}
    (variables : gmap str (VariableHandler Ctx))
    (functions : gmap str (FunctionHandler Ctx Embed)) (text : str)
    (ctx : Ctx) (r : RenderResult Embed) :
  (∀ name handler, functions !! name = Some handler →
                   handler = emoji_handler) →
  InterpolationEngine_render variables functions text ctx = Ok r →
  NoDup (emojis r) ∧ embeds r = [].
Proof.
  intros Hfun.
  apply (InterpolationEngine_render_invariant variables functions
           (λ st, NoDup (emojis st) ∧ embeds st = [])).
  - intros name handler ctx' st args ->%Hfun [Hnd He].
    unfold emoji_handler. destruct args as [|emoji [|? ?]]; try done.
    simpl. split; [by apply add_emoji_NoDup|].
    by rewrite (proj2 (add_emoji_other emoji st)).
  - done.
  - split; [constructor|done].
Qed.

Lemma emoji_placeholder_lists_once_witness :
  NoDup (emojis (mkRenderResult (Embed := unit) []
                   [] ["a" : str; "b" : str]))
  ∧ embeds (mkRenderResult (Embed := unit) [] [] ["a" : str; "b" : str]) = [].
Proof.
  apply (emoji_placeholder_lists_once ∅ emoji_functions
           "{emoji:a}{emoji:b}{emoji:a}" tt).
  - intros name handler Hh. unfold emoji_functions in Hh.
    by apply lookup_singleton_Some in Hh as [_ <-].
  - by vm_compute.
Defined.

(** * The registry *)

Lemma replace_underscores_free (s : str) : "_"%char ∉ replace_underscores s.
Proof.
  unfold replace_underscores. intros H.
  apply list_elem_of_fmap in H as (c & Hc & _).
  destruct (Ascii.eqb_spec c "_") as [Heq|Hne]; [discriminate Hc|congruence].
Qed.

Lemma replace_underscores_inj (s : str) :
  ∀ t, "."%char ∉ s → "."%char ∉ t →
       replace_underscores s = replace_underscores t → s = t.
Proof.
  induction s as [|c s IH]; intros [|d t] Hs Ht; try done.
  simpl. intros [= Hcd Hst].
  apply not_elem_of_cons in Hs as [Hc Hs], Ht as [Hd Ht].
  f_equal; [|by apply IH].
  destruct (Ascii.eqb_spec c "_") as [->|], (Ascii.eqb_spec d "_") as [->|];
    congruence.
Qed.

(** X15: the placeholder name that the decorator derives from the name of
    a function has the same length and no underscore, is the name itself
    when that has no underscore, and two names without a dot that give
    the same placeholder name are the same. *)
Theorem decorator_names {Ctx Embed : Type} (use : PlaceholderType)
    (func : Method Ctx Embed) :
  ∃ name,
    placeholder_attrs (placeholder use func) = Some (use, name)
    ∧ length name = length (func_name func)
    ∧ ("_"%char ∉ name)
    ∧ ("_"%char ∉ (func_name func) → name = func_name func)
    ∧ ∀ use' (func' : Method Ctx Embed),
        "."%char ∉ (func_name func) → "."%char ∉ (func_name func') →
        placeholder_attrs (placeholder use' func') = Some (use', name) →
        func_name func' = func_name func.
Proof.
  exists (replace_underscores (func_name func)).
  split; [done|]. split; [apply length_map|].
  split; [apply replace_underscores_free|]. split.
  - intros Hfree. unfold replace_underscores.
    induction (func_name func) as [|c s IH]; [done|].
    apply not_elem_of_cons in Hfree as [Hc Hs]. simpl.
    rewrite IH by done.
    destruct (Ascii.eqb_spec c "_") as [Heq|Hne]; [congruence|done].
  - intros use' func' Hf Hf' [= H]. by apply replace_underscores_inj.
Qed.

Lemma decorator_names_witness :
  replace_underscores "user_name" = "user.name".
Proof.
  destruct (decorator_names (Ctx := unit) (Embed := unit) VARIABLE
              (mkMethod "user_name" None (λ _, Raise) (λ _ st _, (Raise, st))))
    as (name & [= <-] & _).
  reflexivity.
Defined.

Section dict.
Context {V : Type}.
Implicit Types d : list (str * V).

Lemma dict_set_to_map k (v : V) d :
  (list_to_map (dict_set k v d) : gmap str V) = <[k := v]> (list_to_map d).
Proof.
  induction d as [|[k' v'] d IH]; simpl; [done|].
  destruct (decide (k' = k)) as [->|Hne]; simpl.
  - by rewrite insert_insert_eq.
  - by rewrite IH, insert_insert_ne.
Qed.

Lemma dict_set_keys k (v : V) d x :
  x ∈ map fst (dict_set k v d) ↔ x = k ∨ x ∈ map fst d.
Proof.
  induction d as [|[k' v'] d IH]; simpl.
  - rewrite list_elem_of_singleton, elem_of_nil. tauto.
  - destruct (decide (k' = k)) as [->|Hne]; simpl;
      rewrite !elem_of_cons, ?IH; tauto.
Qed.

Lemma dict_set_NoDup k (v : V) d :
  NoDup (map fst d) → NoDup (map fst (dict_set k v d)).
Proof.
  induction d as [|[k' v'] d IH]; simpl.
  - intros _. apply NoDup_singleton.
  - intros [Hk' Hd]%NoDup_cons.
    destruct (decide (k' = k)) as [->|Hne]; simpl; apply NoDup_cons.
    + done.
    + split; [|by apply IH]. rewrite dict_set_keys. intros [?|?]; done.
Qed.
End dict.

Section discovery.
Context {Ctx Embed : Type}.
Implicit Types self : InterpolationEngine Ctx Embed.
Implicit Types item : str * Method Ctx Embed.
Implicit Types manager : list (str * Method Ctx Embed).

Abbreviation variables_of self :=
  (list_to_map (_variables self) : gmap str (Method Ctx Embed)).
Abbreviation functions_of self :=
  (list_to_map (_functions self) : gmap str (Method Ctx Embed)).

Lemma discover_registers self item name :
  (registers_as VARIABLE name item →
   variables_of (discover self item) !! name = Some item.2)
  ∧ (registers_as FUNCTION name item →
     functions_of (discover self item) !! name = Some item.2).
Proof.
  destruct item as [attr_name attr]. unfold registers_as, discover. simpl.
  split; intros [-> ->]; simpl; by rewrite dict_set_to_map, lookup_insert_eq.
Qed.

Lemma discover_other self item name :
  (¬ registers_as VARIABLE name item →
   variables_of (discover self item) !! name = variables_of self !! name)
  ∧ (¬ registers_as FUNCTION name item →
     functions_of (discover self item) !! name = functions_of self !! name).
Proof.
  destruct item as [attr_name attr]. unfold registers_as, discover. simpl.
  destruct (is_private attr_name); [done|].
  destruct (placeholder_attrs attr) as [[[] name']|]; [| |done];
    (split; intros Hno; simpl; [|]); try done;
    rewrite dict_set_to_map, lookup_insert_ne; try done;
    intros ->; by apply Hno.
Qed.

Lemma foldl_discover_other manager name :
  ∀ self,
    (Forall (λ item, ¬ registers_as VARIABLE name item) manager →
     variables_of (foldl discover self manager) !! name
     = variables_of self !! name)
    ∧ (Forall (λ item, ¬ registers_as FUNCTION name item) manager →
       functions_of (foldl discover self manager) !! name
       = functions_of self !! name).
Proof.
  induction manager as [|item manager IH]; intros self; [done|].
  simpl. split; intros [Hitem Hrest]%Forall_cons.
  - rewrite (proj1 (IH _) Hrest). by apply discover_other.
  - rewrite (proj2 (IH _) Hrest). by apply discover_other.
Qed.

Lemma discover_keys self item :
  NoDup (map fst (_variables self)) ∧ NoDup (map fst (_functions self)) →
  NoDup (map fst (_variables (discover self item)))
  ∧ NoDup (map fst (_functions (discover self item))).
Proof.
  intros [Hv Hf]. destruct item as [attr_name attr]. unfold discover.
  destruct (is_private attr_name); [done|].
  destruct (placeholder_attrs attr) as [[[] name']|]; [| |done]; simpl;
    split; try done; by apply dict_set_NoDup.
Qed.

Lemma foldl_discover_keys manager :
  ∀ self,
    NoDup (map fst (_variables self)) ∧ NoDup (map fst (_functions self)) →
    NoDup (map fst (_variables (foldl discover self manager)))
    ∧ NoDup (map fst (_functions (foldl discover self manager))).
Proof.
  induction manager as [|item manager IH]; intros self H; [done|].
  simpl. by apply IH, discover_keys.
Qed.

Lemma dict_keys_lookup {V : Type} (d : list (str * V)) (k : str) :
  k ∈ map fst d ↔ is_Some ((list_to_map d : gmap str V) !! k).
Proof.
  induction d as [|[k' v'] d IH]; simpl.
  - rewrite lookup_empty, elem_of_nil. split; [done|by intros []].
  - rewrite elem_of_cons, IH. destruct (decide (k' = k)) as [->|Hne].
    + rewrite lookup_insert_eq. split; eauto.
    + rewrite lookup_insert_ne by done. split; [|by right].
      by intros [->|?].
Qed.

(** X16: the engine registers the public attributes of the manager that
    the decorator has marked, the last one of a name and type winning: a
    placeholder name resolves to the last attribute registered under it,
    and to nothing when there is none.  The names that
    [get_registered_placeholders] lists are the names that resolve, each
    listed once. *)
Theorem engine_discovery manager (name : str) :
  (Forall (λ item, ¬ registers_as VARIABLE name item) manager →
   engine_variables (InterpolationEngine_init manager) !! name = None)
  ∧ (Forall (λ item, ¬ registers_as FUNCTION name item) manager →
     engine_functions (InterpolationEngine_init manager) !! name = None)
  ∧ (∀ before item after,
       manager = before ++ item :: after →
       registers_as VARIABLE name item →
       Forall (λ item', ¬ registers_as VARIABLE name item') after →
       engine_variables (InterpolationEngine_init manager) !! name
       = Some (call_with_ctx item.2))
  ∧ (∀ before item after,
       manager = before ++ item :: after →
       registers_as FUNCTION name item →
       Forall (λ item', ¬ registers_as FUNCTION name item') after →
       engine_functions (InterpolationEngine_init manager) !! name
       = Some (call_with_args item.2))
  ∧ (name ∈ (get_registered_placeholders
               (InterpolationEngine_init manager)).1
     ↔ is_Some (engine_variables (InterpolationEngine_init manager) !! name))
  ∧ (name ∈ (get_registered_placeholders
               (InterpolationEngine_init manager)).2
     ↔ is_Some (engine_functions (InterpolationEngine_init manager) !! name))
  ∧ NoDup (get_registered_placeholders (InterpolationEngine_init manager)).1
  ∧ NoDup (get_registered_placeholders (InterpolationEngine_init manager)).2.
Proof.
  unfold engine_variables, engine_functions, InterpolationEngine_init,
    get_registered_placeholders. rewrite !lookup_fmap.
  split; [|split; [|split; [|split; [|split; [|split]]]]].
  - intros H. by rewrite (proj1 (foldl_discover_other _ _ _) H).
  - intros H. by rewrite (proj2 (foldl_discover_other _ _ _) H).
  - intros before item after -> Hitem Hafter.
    rewrite foldl_app. simpl.
    rewrite (proj1 (foldl_discover_other _ _ _) Hafter).
    by rewrite (proj1 (discover_registers _ _ _) Hitem).
  - intros before item after -> Hitem Hafter.
    rewrite foldl_app. simpl.
    rewrite (proj2 (foldl_discover_other _ _ _) Hafter).
    by rewrite (proj2 (discover_registers _ _ _) Hitem).
  - simpl. rewrite dict_keys_lookup, fmap_is_Some. done.
  - simpl. rewrite dict_keys_lookup, fmap_is_Some. done.
  - simpl. apply foldl_discover_keys. simpl. split; constructor.
Qed.
End discovery.

Lemma engine_discovery_witness :
  (∃ handler,
     engine_variables (InterpolationEngine_init example_manager)
       !! ("user.name" : str) = Some handler
     ∧ handler tt = Return (Some ("second" : str)))
  ∧ engine_variables (InterpolationEngine_init example_manager)
      !! (".secret" : str) = None
  ∧ engine_functions (InterpolationEngine_init example_manager)
      !! ("user.name" : str) = None.
Proof.
  destruct (engine_discovery example_manager ("user.name" : str))
    as (_ & Hfun & Hvar & _).
  destruct (engine_discovery example_manager (".secret" : str))
    as (Hsecret & _).
  split; [|split].
  - eexists. split.
    + apply (Hvar (take 4 example_manager)
               ("user_name" : str,
                 placeholder VARIABLE (example_method "user_name" "second"))
               []); [reflexivity| |constructor].
      split; reflexivity.
    + reflexivity.
  - apply Hsecret. unfold example_manager.
    repeat constructor; intros [Hpublic Hattrs]; discriminate.
  - apply Hfun. unfold example_manager.
    repeat constructor; intros [Hpublic Hattrs]; discriminate.
Defined.

Section engines.
Context {Ctx Embed : Type}.
Implicit Types manager : list (str * Method Ctx Embed).



End engines.

